(** * Mini-batch iterator of the CTC data loader

    Shallow embedding of [experiments/utils/data/ctc_all_load.py]
    (class [DatasetBase]: constructor and the generator [next_batch]) and
    the properties of its batching, padding and sharding.  Part I holds the
    definitions, Part II the lemmas and the theorems.

    Modelling conventions.
    - Python integers that count things (batch sizes, indices, lengths) are
      [nat]; label values are [Z] (the padding value is [-1]).
    - An input array of shape [[T, input_size]] is the list of its [T]
      frames, a frame being a list of features.  The features are floats in
      the source; nothing is computed with them, so their type [feat] is a
      parameter and [fzero] stands for [0.0].  Every loaded frame has
      [input_size] features, so that a slice assignment is decided along the
      time axis alone.
    - A Python [set] of small integers is represented by the sequence in
      which it is iterated.  [set(range(n))] iterates in ascending order and
      [s -= t] removes the elements of [t] without moving the others.
    - Exceptions are values of [exn]; a computation that may raise returns a
      [result], and the generator body runs in a state-and-exception monad
      [M] whose state survives a raise, as attribute updates do in Python.
    - The module [random] is an interface ([RandomGen]) with the contracts of
      [random.shuffle] and [random.sample].
    - [list2sparsetensor] and the TensorFlow session are collaborators that
      live outside this file of the repository: they are parameters.  In
      sharded mode the source maps [list2sparsetensor] over the pairs
      (slice of labels, padding value); the model applies it to the two
      components of each pair. *)

From stdpp Require Import base list sorting strings.
From Stdlib Require Import Ascii ZArith.

Local Open Scope Z_scope.
Local Open Scope nat_scope.

(** * Part I: the model *)

(** ** Exceptions and fallible computations *)

Inductive exn : Type :=
| ValueError (msg : string)
| IndexError (msg : string)
| AttributeError (msg : string).

Inductive result (A : Type) : Type :=
| Ok (a : A)
| Raise (e : exn).
Arguments Ok {A} a.
Arguments Raise {A} e.

#[global] Instance result_ret : MRet result := λ A a, Ok a.
#[global] Instance result_bind : MBind result := λ A B f m,
  match m with
  | Ok a => f a
  | Raise e => Raise e
  end.

(** [for x in l: s = body(s, x)], stopping at the first exception. *)
Fixpoint for_each {A S : Type} (body : S → A → result S) (l : list A) (s : S)
  : result S :=
  match l with
  | [] => Ok s
  | a :: l' => s' ← body s a; for_each body l' s'
  end.

(** [[f(x) for x in l]], stopping at the first exception. *)
Fixpoint map_result {A B : Type} (f : A → result B) (l : list A)
  : result (list B) :=
  match l with
  | [] => Ok []
  | a :: l' => b ← f a; bs ← map_result f l'; Ok (b :: bs)
  end.

(** [enumerate(l)] *)
Definition enumerate {A : Type} (l : list A) : list (nat * A) :=
  zip (seq 0 (length l)) l.

(** ** Python and NumPy primitives used by the loader *)

(** [l[i]] for a non-negative index. *)
Definition getitem {A : Type} (l : list A) (i : nat) : result A :=
  match l !! i with
  | Some a => Ok a
  | None => Raise (IndexError "index out of range")
  end.

(** [l[-1]] *)
Definition last_item {A : Type} (l : list A) : result A :=
  match last l with
  | Some a => Ok a
  | None => Raise (IndexError "list index out of range")
  end.

(** [arr[idx]] with a list of indices (NumPy integer-array indexing). *)
Definition take_indices {A : Type} (arr : list A) (idx : list nat)
  : result (list A) :=
  map_result (getitem arr) idx.

(** [max(l)] on integers: raises on the empty sequence. *)
Definition py_max (l : list nat) : result nat :=
  match l with
  | [] => Raise (ValueError "max() arg is an empty sequence")
  | _ :: _ => Ok (max_list l)
  end.

(** [row[:len(data)] = data] along the first axis.  The target slice has
    [min (len data) (len row)] entries; NumPy copies when the lengths agree,
    broadcasts a single entry (here only onto an empty slice, which changes
    nothing) and raises otherwise. *)
Definition assign_prefix {A : Type} (row data : list A) : result (list A) :=
  if decide (length data ≤ length row) then Ok (data ++ drop (length data) row)
  else if decide (length data = 1) then Ok row
  else Raise (ValueError "could not broadcast input array").

(** [m[i] = f(m[i])] on the rows of a matrix, [f] being a slice assignment. *)
Definition update_row {A : Type} (f : A → result A) (i : nat) (m : list A)
  : result (list A) :=
  row ← getitem m i; row' ← f row; Ok (<[i:=row']> m).

(** [s -= set(k)] on the iteration sequence of [s]. *)
Definition set_difference_update (s k : list nat) : list nat :=
  list_difference s k.

(** [c in s] for a character [c]. *)
Fixpoint contains (c : ascii) (s : string) : bool :=
  match s with
  | EmptyString => false
  | String d s' => Ascii.eqb d c || contains c s'
  end.

(** [os.path.basename(p)] (posixpath): [p[p.rfind('/') + 1:]], what follows
    the last slash. *)
Fixpoint basename (p : string) : string :=
  match p with
  | EmptyString => EmptyString
  | String c p' => if contains "/" p then basename p' else p
  end.

(** [s.split('.')[0]]: what precedes the first dot. *)
Fixpoint before_first_dot (s : string) : string :=
  match s with
  | EmptyString => EmptyString
  | String c s' =>
      if Ascii.eqb c "." then EmptyString else String c (before_first_dot s')
  end.

(** [tf.split(value, n, axis=0)]: [n] slices of equal size; the size of the
    first axis has to be a multiple of [n]. *)
Fixpoint chunks {A : Type} (size n : nat) (l : list A) : list (list A) :=
  match n with
  | 0 => []
  | S n' => take size l :: chunks size n' (drop size l)
  end.

Definition tf_split {A : Type} (value : list A) (n : nat)
  : result (list (list A)) :=
  if decide (n = 0) then
    Raise (ValueError "num_or_size_splits must be positive")
  else if decide (length value `mod` n = 0) then
    Ok (chunks (length value `div` n) n value)
  else Raise (ValueError "Dimension size must be evenly divisible by the number of splits").

(** ** The module [random]

    [random.shuffle(x)] permutes [x] in place and [random.sample(p, k)]
    returns [k] distinct positions' elements of [p]; both advance the
    generator's state. *)
Class RandomGen (rng : Type) : Type := {
  shuffle : list nat → rng → list nat * rng;
  sample : list nat → nat → rng → list nat * rng;
  shuffle_perm l g : (shuffle l g).1 ≡ₚ l;
  sample_length l k g : k ≤ length l → length (sample l k g).1 = k;
  sample_sub l k g : k ≤ length l → (sample l k g).1 ⊆+ l
}.

(** A deterministic generator: the state counts the calls, [shuffle] rotates
    by it and [sample] takes the first [k] elements of the rotated list. *)
Definition rotate_by (g : nat) (l : list nat) : list nat :=
  drop (g `mod` length l) l ++ take (g `mod` length l) l.

(** ** The object and the state of a run *)

(** What the corpus-specific loader stores in steps 1 to 3 of the
    constructor (the base class only declares these attributes). *)
Record corpus (feat : Type) : Type := Corpus {
  c_input_size : nat;
  c_input_paths : list string;
  c_data_num : nat;
  c_input_list : list (list (list feat));
  c_label_list : list (list Z)
}.
Arguments Corpus {feat}.
Arguments c_input_size {feat}.
Arguments c_input_paths {feat}.
Arguments c_data_num {feat}.
Arguments c_input_list {feat}.
Arguments c_label_list {feat}.

(** The attributes of a [DatasetBase] that never change after construction.
    An element of [input_list] is an array of shape [[T_i, input_size]]: a
    list of [T_i] frames, each a list of [input_size] features. *)
Record DatasetBase (feat : Type) : Type := Dataset {
  data_type : string;
  label_type : string;
  batch_size : nat;
  is_sorted : bool;
  num_gpu : nat;
  input_size : nat;
  input_paths : list string;
  data_num : nat;
  input_list : list (list (list feat));
  label_list : list (list Z)
}.
Arguments Dataset {feat}.
Arguments data_type {feat}.
Arguments label_type {feat}.
Arguments batch_size {feat}.
Arguments is_sorted {feat}.
Arguments num_gpu {feat}.
Arguments input_size {feat}.
Arguments input_paths {feat}.
Arguments data_num {feat}.
Arguments input_list {feat}.
Arguments label_list {feat}.

(** What changes while batches are drawn: the attribute [rest], the state of
    [random], what was printed, and the local [next_epoch_flag] of the
    running generator. *)
Record state (rng : Type) : Type := State {
  rest : list nat;
  gen : rng;
  stdout : list string;
  next_epoch_flag : bool
}.
Arguments State {rng}.
Arguments rest {rng}.
Arguments gen {rng}.
Arguments stdout {rng}.
Arguments next_epoch_flag {rng}.

(** [self.batch_size], where a parameter is called [batch_size] as well. *)
Definition self_batch_size {feat : Type} (self : DatasetBase feat) : nat :=
  batch_size self.

(** [DatasetBase.__init__] (lines 36-57), with the attributes of steps 1 to 3
    as the loader stores them.  [is_progressbar], [frame_num_dict] and
    [label_paths] are not read by [next_batch] and are left out.  Returns the
    object and its attribute [rest]. *)
Definition __init__ {feat : Type} (data_type label_type : string)
    (batch_size : nat) (is_sorted : bool) (num_gpu : nat) (c : corpus feat)
  : DatasetBase feat * list nat :=
  let self :=
    {| data_type := data_type;
       label_type := label_type;
       batch_size := batch_size * num_gpu;
       is_sorted := is_sorted;
       num_gpu := num_gpu;
       input_size := c_input_size c;
       input_paths := c_input_paths c;
       data_num := c_data_num c;
       input_list := c_input_list c;
       label_list := c_label_list c |} in
  (self, seq 0 (data_num self)).

(** The state in which the first batch of a fresh object is drawn. *)
Definition start {rng : Type} (pool : list nat) (g : rng) : state rng :=
  {| rest := pool; gen := g; stdout := []; next_epoch_flag := false |}.

(** ** The state-and-exception monad *)

Definition M (rng A : Type) : Type := state rng → result A * state rng.

#[global] Instance M_ret {rng} : MRet (M rng) := λ A a st, (Ok a, st).
#[global] Instance M_bind {rng} : MBind (M rng) := λ A B f m st,
  match m st with
  | (Ok a, st') => f a st'
  | (Raise e, st') => (Raise e, st')
  end.

Definition lift {rng A} (r : result A) : M rng A := λ st, (r, st).
Definition raise {rng A} (e : exn) : M rng A := λ st, (Raise e, st).
Definition get_rest {rng} : M rng (list nat) := λ st, (Ok (rest st), st).
Definition put_rest {rng} (r : list nat) : M rng () := λ st,
  (Ok (), {| rest := r; gen := gen st; stdout := stdout st;
             next_epoch_flag := next_epoch_flag st |}).
Definition get_flag {rng} : M rng bool := λ st, (Ok (next_epoch_flag st), st).
Definition put_flag {rng} (b : bool) : M rng () := λ st,
  (Ok (), {| rest := rest st; gen := gen st; stdout := stdout st;
             next_epoch_flag := b |}).
Definition print {rng} (line : string) : M rng () := λ st,
  (Ok (), {| rest := rest st; gen := gen st; stdout := stdout st ++ [line];
             next_epoch_flag := next_epoch_flag st |}).
Definition with_random {rng} (f : rng → list nat * rng) : M rng (list nat) :=
  λ st, let '(l, g) := f (gen st) in
        (Ok l, {| rest := rest st; gen := g; stdout := stdout st;
                  next_epoch_flag := next_epoch_flag st |}).

(** [n] times [body], collecting what it returns. *)
Fixpoint iterate {rng A} (n : nat) (body : M rng A) : M rng (list A) :=
  match n with
  | 0 => mret []
  | S n' => a ← body; l ← iterate n' body; mret (a :: l)
  end.

(** ** The generator [next_batch] *)

Definition padded_value : Z := (-1)%Z.

Definition session_message : string := "Set session when using multiple GPUs.".

(** The local arrays [inputs], [labels], [inputs_seq_len], [input_names]. *)
Record arrays (feat : Type) : Type := Arrays {
  inputs : list (list (list feat));
  labels : list (list Z);
  inputs_seq_len : list nat;
  input_names : list (option string)
}.
Arguments Arrays {feat}.
Arguments inputs {feat}.
Arguments labels {feat}.
Arguments inputs_seq_len {feat}.
Arguments input_names {feat}.

(** What one [yield] hands out: the tuple as it is without sharding, or the
    four lists of per-replica slices. *)
Inductive batch (feat sparse : Type) : Type :=
| Whole (inputs : list (list (list feat))) (labels_st : sparse)
    (inputs_seq_len : list nat) (input_names : list (option string))
| Sharded (inputs : list (list (list (list feat)))) (labels_st : list sparse)
    (inputs_seq_len : list (list nat)) (input_names : list (list (option string))).
Arguments Whole {feat sparse}.
Arguments Sharded {feat sparse}.

(** [o is None] *)
Definition is_none {A : Type} (o : option A) : bool :=
  match o with
  | None => true
  | Some _ => false
  end.

(** [l[i] = v] on a Python list or a one-dimensional array. *)
Definition setitem {A : Type} (l : list A) (i : nat) (v : A) : result (list A) :=
  if decide (i < length l) then Ok (<[i:=v]> l)
  else Raise (IndexError "assignment index out of range").

(** [for i in range(g, 0, -1): if n % i == 0: divide_num = i; break] *)
Fixpoint find_divisor (n i divide_num : nat) : nat :=
  match i with
  | 0 => divide_num
  | S i' => if decide (n `mod` i = 0) then i else find_divisor n i' divide_num
  end.

Section Loader.
Context {feat : Type} (fzero : feat).
Context {rng : Type} `{!RandomGen rng}.
Context {Session sparse : Type}.
Context (list2sparsetensor : list (list Z) → Z → sparse).

Implicit Types (self : DatasetBase feat) (st : state rng).

(** Lines 106-111 (and 151-156): the arrays before they are filled.
    [np.empty] leaves the lengths undetermined; every entry is written
    before it is read, [0] stands for the initial content. *)
Definition init_arrays self (n max_frame_num max_seq_len : nat) : arrays feat :=
  {| inputs := replicate n (replicate max_frame_num (replicate (input_size self) fzero));
     labels := replicate n (replicate max_seq_len padded_value);
     inputs_seq_len := replicate n 0;
     input_names := replicate n None |}.

(** Lines 115-122 (and 160-167): the body of the filling loop. *)
Definition set_example self (arr : arrays feat) (ix : nat * nat)
  : result (arrays feat) :=
  let '(i_batch, x) := ix in
  data_i ← getitem (input_list self) x;
  let frame_num := length data_i in
  inputs' ← update_row (λ row, assign_prefix row data_i) i_batch (inputs arr);
  label ← getitem (label_list self) x;
  labels' ← update_row (λ row, assign_prefix row label) i_batch (labels arr);
  inputs_seq_len' ← setitem (inputs_seq_len arr) i_batch frame_num;
  path ← getitem (input_paths self) x;
  input_names' ← setitem (input_names arr) i_batch
                   (Some (before_first_dot (basename path)));
  Ok {| inputs := inputs'; labels := labels';
        inputs_seq_len := inputs_seq_len'; input_names := input_names' |}.

(** Lines 105-122: allocation and the filling loop. *)
Definition fill_arrays self (indices : list nat) (max_frame_num max_seq_len : nat)
  : result (arrays feat) :=
  for_each (set_example self) (enumerate indices)
    (init_arrays self (length indices) max_frame_num max_seq_len).

(** The [else] branches at lines 89-94 and 133-138. *)
Definition next_epoch self : M rng () :=
  put_rest (seq 0 (data_num self));;
  put_flag true;;
  if decide (data_type self = "train") then print "---Next epoch---"
  else mret ().

(** Lines 86-94: the indices of a sorted dataset's next batch. *)
Definition draw_sorted self (batch_size : nat) : M rng (list nat) :=
  pool ← get_rest;
  if decide (batch_size < length pool) then
    let sorted_indices := take batch_size pool in
    put_rest (set_difference_update pool sorted_indices);;
    mret sorted_indices
  else
    next_epoch self;;
    mret pool.

(** Lines 85-122: the branch of a sorted dataset.  Returns the indices in
    the order in which the batch holds them, and the arrays. *)
Definition sorted_branch self (batch_size : nat) : M rng (list nat * arrays feat) :=
  sorted_indices ← draw_sorted self batch_size;
  last_index ← lift (last_item sorted_indices);
  data_last ← lift (getitem (input_list self) last_index);
  let max_frame_num := length data_last in
  labs ← lift (take_indices (label_list self) sorted_indices);
  max_seq_len ← lift (py_max (length <$> labs));
  sorted_indices ← with_random (shuffle sorted_indices);
  arr ← lift (fill_arrays self sorted_indices max_frame_num max_seq_len);
  mret (sorted_indices, arr).

(** [random.sample(population, k)] *)
Definition random_sample (population : list nat) (k : nat) : M rng (list nat) :=
  if decide (k ≤ length population) then with_random (sample population k)
  else raise (ValueError "Sample larger than population or is negative").

(** Lines 128-141: the indices of the next batch of a dataset that is not
    sorted. *)
Definition draw_random self (batch_size : nat) : M rng (list nat) :=
  pool ← get_rest;
  if decide (batch_size < length pool) then
    random_indices ← random_sample pool batch_size;
    put_rest (set_difference_update pool random_indices);;
    mret random_indices
  else
    next_epoch self;;
    with_random (shuffle pool).

(** Lines 127-167: the branch of a dataset that is not sorted. *)
Definition random_branch self (batch_size : nat) : M rng (list nat * arrays feat) :=
  random_indices ← draw_random self batch_size;
  data ← lift (take_indices (input_list self) random_indices);
  max_frame_num ← lift (py_max (length <$> data));
  labs ← lift (take_indices (label_list self) random_indices);
  max_seq_len ← lift (py_max (length <$> labs));
  arr ← lift (fill_arrays self random_indices max_frame_num max_seq_len);
  mret (random_indices, arr).

(** [session.run]: the value of a tensor; a missing session has no
    attribute [run]. *)
Definition session_run {A : Type} (session : option Session) (v : A) : result A :=
  match session with
  | Some _ => Ok v
  | None => Raise (AttributeError "'NoneType' object has no attribute 'run'")
  end.

(** Lines 169-193: sharding and the sparse labels. *)
Definition split_batch self (session : option Session) (arr : arrays feat)
  : M rng (batch feat sparse) :=
  if decide (1 < num_gpu self) then
    flag ← get_flag;
    pool ← get_rest;
    divide_num ←
      (if flag : bool then
         let divide_num :=
           find_divisor (length pool) (num_gpu self) (num_gpu self) in
         put_flag false;;
         mret divide_num
       else mret (num_gpu self));
    inputs ← lift (tf_split (inputs arr) divide_num);
    labels ← lift (tf_split (labels arr) divide_num);
    inputs_seq_len ← lift (tf_split (inputs_seq_len arr) divide_num);
    input_names ← lift (tf_split (input_names arr) divide_num);
    inputs ← lift (map_result (session_run session) inputs);
    labels ← lift (map_result (session_run session) labels);
    let labels_st :=
      (λ p : list (list Z) * Z, list2sparsetensor p.1 p.2)
        <$> zip labels (replicate (length labels) padded_value) in
    inputs_seq_len ← lift (map_result (session_run session) inputs_seq_len);
    input_names ← lift (map_result (session_run session) input_names);
    mret (Sharded inputs labels_st inputs_seq_len input_names)
  else
    mret (Whole (inputs arr) (list2sparsetensor (labels arr) padded_value)
            (inputs_seq_len arr) (input_names arr)).

(** Lines 72-79: what runs before the loop when the generator is first
    resumed.  Returns the batch size in use. *)
Definition next_batch_enter self (batch_size : option nat)
    (session : option Session) : M rng nat :=
  if is_none session && negb (num_gpu self =? 1) then
    raise (ValueError session_message)
  else
    put_flag false;;
    mret (default (self_batch_size self) batch_size).

(** Lines 85-167: the [if self.is_sorted] statement. *)
Definition mini_batch self (batch_size : nat) : M rng (list nat * arrays feat) :=
  if is_sorted self then sorted_branch self batch_size
  else random_branch self batch_size.

(** Lines 81-195: one turn of the loop, up to the [yield].  Besides the
    yielded tuple it returns the local list of the indices drawn
    ([sorted_indices] or [random_indices] as it is at the [yield]). *)
Definition next_batch_iter self (batch_size : nat) (session : option Session)
  : M rng (list nat * batch feat sparse) :=
  drawn ← mini_batch self batch_size;
  out ← split_batch self session drawn.2;
  mret (drawn.1, out).

(** The first [n] items of [self.next_batch(batch_size, session)].  Nothing
    of the body runs before the first item is asked for. *)
Definition next_batch self (batch_size : option nat) (session : option Session)
    (n : nat) : M rng (list (list nat * batch feat sparse)) :=
  match n with
  | 0 => mret []
  | S _ =>
      size ← next_batch_enter self batch_size session;
      iterate n (next_batch_iter self size session)
  end.
End Loader.

(** ** A concrete generator and a concrete sparsifier, for the examples *)

(** [shuffle] and [sample] of the counting generator. *)
Definition counter_shuffle (l : list nat) (g : nat) : list nat * nat :=
  (rotate_by g l, S g).

Definition counter_sample (l : list nat) (k : nat) (g : nat) : list nat * nat :=
  (take k (rotate_by g l), S g).

(** Modelled from the spec: [list2sparsetensor], which is imported from
    [..sparsetensor] and is not in this file of the repository.  The sparse
    representation omits the padded positions: it lists (row, column, value)
    for the entries that differ from the padding value. *)
Definition triples (m : list (list Z)) (pad : Z) : list (nat * nat * Z) :=
  concat (imap (λ i row,
    omap (λ jv : nat * Z, if decide (jv.2 = pad) then None else Some (i, jv.1, jv.2))
         (imap (λ j v, (j, v)) row)) m).

(** ** Closed forms of the loop and of the branches

    The definitions below restate parts of the generator as functions of the
    drawn indices; the lemmas of the second part relate them to the code. *)

(** The four entries that the loop writes for one example. *)
Record filled (feat : Type) : Type := Filled {
  f_input : list (list feat);
  f_label : list Z;
  f_len : nat;
  f_name : option string
}.
Arguments Filled {feat}.
Arguments f_input {feat}.
Arguments f_label {feat}.
Arguments f_len {feat}.
Arguments f_name {feat}.

Definition arrays_of {feat} (rows : list (filled feat)) : arrays feat :=
  {| inputs := f_input <$> rows;
     labels := f_label <$> rows;
     inputs_seq_len := f_len <$> rows;
     input_names := f_name <$> rows |}.

Definition arrays_app {feat} (a b : arrays feat) : arrays feat :=
  {| inputs := inputs a ++ inputs b;
     labels := labels a ++ labels b;
     inputs_seq_len := inputs_seq_len a ++ inputs_seq_len b;
     input_names := input_names a ++ input_names b |}.

(** [l ++ [pad] * (n - len(l))] *)
Definition pad_to {A : Type} (n : nat) (pad : A) (l : list A) : list A :=
  l ++ replicate (n - length l) pad.

Section ClosedForms.
Context {feat : Type} (fzero : feat).
Context {sparse : Type}.
Context (list2sparsetensor : list (list Z) → Z → sparse).

Implicit Types (self : DatasetBase feat).

(** What one turn of the loop computes from the index [x] alone. *)
Definition fill_example self (max_frame_num max_seq_len x : nat)
  : result (filled feat) :=
  data_i ← getitem (input_list self) x;
  row ← assign_prefix
          (replicate max_frame_num (replicate (input_size self) fzero)) data_i;
  label ← getitem (label_list self) x;
  lrow ← assign_prefix (replicate max_seq_len padded_value) label;
  path ← getitem (input_paths self) x;
  Ok (Filled row lrow (length data_i)
        (Some (before_first_dot (basename path)))).

(** The example with index [x]: its frames, its labels and its path. *)
Definition frames self (x : nat) : list (list feat) :=
  default [] (input_list self !! x).

Definition label_seq self (x : nat) : list Z :=
  default [] (label_list self !! x).

Definition path_of self (x : nat) : string :=
  default EmptyString (input_paths self !! x).

(** The index [x] is one of every per-example list. *)
Definition in_range self (x : nat) : Prop :=
  x < length (input_list self) ∧ x < length (label_list self)
  ∧ x < length (input_paths self).

Definition zero_frame self : list feat := replicate (input_size self) fzero.

Definition pad_example self (T L x : nat) : filled feat :=
  {| f_input := pad_to T (zero_frame self) (frames self x);
     f_label := pad_to L padded_value (label_seq self x);
     f_len := length (frames self x);
     f_name := Some (before_first_dot (basename (path_of self x))) |}.

(** The largest number of frames and the longest label sequence among
    the examples [indices]. *)
Definition max_frames self (indices : list nat) : nat :=
  max_list ((λ x, length (frames self x)) <$> indices).

Definition max_labels self (indices : list nat) : nat :=
  max_list ((λ x, length (label_seq self x)) <$> indices).

(** The batch of the examples [indices], padded to their maxima. *)
Definition padded self (indices : list nat) : arrays feat :=
  arrays_of
    (pad_example self (max_frames self indices) (max_labels self indices)
       <$> indices).

(** Lines 96-122 for the indices [pre] drawn and their shuffle [indices]. *)
Definition sorted_collate self (pre indices : list nat) : result (arrays feat) :=
  last_index ← last_item pre;
  data_last ← getitem (input_list self) last_index;
  labs ← take_indices (label_list self) pre;
  max_seq_len ← py_max (length <$> labs);
  fill_arrays fzero self indices (length data_last) max_seq_len.

(** Lines 143-167 for the indices drawn. *)
Definition random_collate self (indices : list nat) : result (arrays feat) :=
  data ← take_indices (input_list self) indices;
  max_frame_num ← py_max (length <$> data);
  labs ← take_indices (label_list self) indices;
  max_seq_len ← py_max (length <$> labs);
  fill_arrays fzero self indices max_frame_num max_seq_len.

(** Lines 178-190 for a given number of splits and a session. *)
Definition shard (arr : arrays feat) (divide_num : nat) : result (batch feat sparse) :=
  inputs ← tf_split (inputs arr) divide_num;
  labels ← tf_split (labels arr) divide_num;
  inputs_seq_len ← tf_split (inputs_seq_len arr) divide_num;
  input_names ← tf_split (input_names arr) divide_num;
  Ok (Sharded inputs ((λ l, list2sparsetensor l padded_value) <$> labels)
        inputs_seq_len input_names).

Definition name_of self (x : nat) : option string :=
  Some (before_first_dot (basename (path_of self x))).
End ClosedForms.

(** ** States of a run *)

(** The state after [self.rest -= set(drawn)]. *)
Definition remove_drawn {rng} (st : state rng) (drawn : list nat) : state rng :=
  {| rest := set_difference_update (rest st) drawn; gen := gen st;
     stdout := stdout st; next_epoch_flag := next_epoch_flag st |}.

(** The state after the [else] branch that starts the next epoch. *)
Definition rollover {feat rng} (self : DatasetBase feat) (st : state rng) : state rng :=
  {| rest := seq 0 (data_num self); gen := gen st;
     stdout := stdout st ++
       (if decide (data_type self = "train") then ["---Next epoch---"] else []);
     next_epoch_flag := true |}.

Definition set_gen {rng} (st : state rng) (g : rng) : state rng :=
  {| rest := rest st; gen := g; stdout := stdout st;
     next_epoch_flag := next_epoch_flag st |}.

(** The state with the local flag cleared. *)
Definition flag_off {rng} (st : state rng) : state rng :=
  {| rest := rest st; gen := gen st; stdout := stdout st;
     next_epoch_flag := false |}.

(** The number of splits at lines 170-176. *)
Definition divide_num_of {feat rng} (self : DatasetBase feat) (st : state rng) : nat :=
  if next_epoch_flag st
  then find_divisor (length (rest st)) (num_gpu self) (num_gpu self)
  else num_gpu self.

(** Two states that differ at most in the state of [random]. *)
Definition same_but_gen {rng} (st1 st2 : state rng) : Prop :=
  rest st1 = rest st2 ∧ stdout st1 = stdout st2
  ∧ next_epoch_flag st1 = next_epoch_flag st2.

(** ** Properties of pools, datasets and batches *)

(** The pool lists indices in increasing order. *)
Definition ascending (l : list nat) : Prop := StronglySorted lt l.

Definition pool_ok {feat} (self : DatasetBase feat) (pool : list nat) : Prop :=
  ascending pool ∧ Forall (λ i, i < data_num self) pool.

(** The loader's ordering: later examples have at least as many frames. *)
Definition sorted_by_frame_num {feat} (self : DatasetBase feat) : Prop :=
  ∀ i j, i ≤ j → j < length (input_list self) →
    length (frames self i) ≤ length (frames self j).

(** The loader has stored [data_num] inputs, label sequences and paths, and
    has sorted them by their numbers of frames if the object is in sorted
    mode. *)
Record wf_dataset {feat} (self : DatasetBase feat) : Prop := {
  wf_input_list : length (input_list self) = data_num self;
  wf_label_list : length (label_list self) = data_num self;
  wf_input_paths : length (input_paths self) = data_num self;
  wf_sorted : is_sorted self = true → sorted_by_frame_num self
}.

(** How the indices [indices] of a batch and the state [st1] after the
    [if self.is_sorted] statement relate to the state [st] before it. *)
Definition drawn {feat rng} (self : DatasetBase feat) (bs : nat)
    (st : state rng) (indices : list nat) (st1 : state rng) : Prop :=
  if decide (bs < length (rest st)) then
    length indices = bs ∧ indices ⊆+ rest st
    ∧ rest st1 = set_difference_update (rest st) indices
    ∧ stdout st1 = stdout st ∧ next_epoch_flag st1 = next_epoch_flag st
  else
    indices ≡ₚ rest st ∧ rest st1 = seq 0 (data_num self)
    ∧ stdout st1 = stdout (rollover self st) ∧ next_epoch_flag st1 = true.

(** The same for the pool alone. *)
Definition pool_step {feat} (self : DatasetBase feat) (size : nat)
    (pool indices pool' : list nat) : Prop :=
  if decide (size < length pool) then
    length indices = size ∧ indices ⊆+ pool
    ∧ pool' = set_difference_update pool indices
  else
    indices ≡ₚ pool ∧ pool' = seq 0 (data_num self).

(** The yielded tuple [out] holds the arrays [arr]: as they are, or cut
    into consecutive slices along the batch axis. *)
Definition yields {feat sparse} (list2sparsetensor : list (list Z) → Z → sparse)
    (arr : arrays feat) (out : batch feat sparse) : Prop :=
  match out with
  | Whole ins labels_st lens names =>
      ins = inputs arr ∧ labels_st = list2sparsetensor (labels arr) padded_value
      ∧ lens = inputs_seq_len arr ∧ names = input_names arr
  | Sharded ins labels_st lens names =>
      concat ins = inputs arr
      ∧ (∃ labs, concat labs = labels arr
                 ∧ labels_st = (λ m, list2sparsetensor m padded_value) <$> labs)
      ∧ concat lens = inputs_seq_len arr ∧ concat names = input_names arr
  end.

(** [parts] are [n] slices of [size] entries each. *)
Definition evenly_split {A} (n size : nat) (parts : list (list A)) : Prop :=
  length parts = n ∧ Forall (λ c, length c = size) parts.


(** Row [i] of the arrays starts with the frames and the labels of example
    [indices[i]] and continues with zero frames and with [-1]. *)
Definition padded_beyond_length {feat} (fzero : feat) (self : DatasetBase feat)
    (indices : list nat) (arr : arrays feat) : Prop :=
  ∀ i x, indices !! i = Some x →
    ∃ data label row lrow,
      input_list self !! x = Some data ∧ label_list self !! x = Some label
      ∧ inputs arr !! i = Some row ∧ labels arr !! i = Some lrow
      ∧ take (length data) row = data
      ∧ (∀ t, length data ≤ t → t < length row →
           row !! t = Some (replicate (input_size self) fzero))
      ∧ take (length label) lrow = label
      ∧ (∀ t, length label ≤ t → t < length lrow → lrow !! t = Some padded_value).

(** The rows of [inputs] are as long as the longest of the examples
    [indices], the rows of [labels] as long as their longest label sequence. *)
Definition widths_are_maxima {feat} (self : DatasetBase feat)
    (indices : list nat) (arr : arrays feat) : Prop :=
  ∃ data labs,
    Forall2 (λ x d, input_list self !! x = Some d) indices data
    ∧ Forall2 (λ x l, label_list self !! x = Some l) indices labs
    ∧ length (inputs arr) = length indices
    ∧ length (labels arr) = length indices
    ∧ Forall (λ row, length row = max_list (length <$> data)) (inputs arr)
    ∧ Forall (λ row, length row = max_list (length <$> labs)) (labels arr)
    ∧ (∀ d, data = [d] → Forall (λ row, length row = length d) (inputs arr))
    ∧ (∀ l, labs = [l] → Forall (λ row, length row = length l) (labels arr)).

(** What precedes the last dot of [s]; [s] itself if it has no dot. *)
Fixpoint before_last_dot (s : string) : string :=
  match s with
  | EmptyString => EmptyString
  | String c s' =>
      if contains "." s' then String c (before_last_dot s')
      else if Ascii.eqb c "." then EmptyString
      else s
  end.

(** After the spec's words, "the base name with its file extension
    stripped": [os.path.splitext(b)[0]] for a base name [b], that is [b]
    without the suffix that starts at its last dot, where dots that start
    the name do not start an extension. *)
Fixpoint strip_extension (b : string) : string :=
  match b with
  | EmptyString => EmptyString
  | String c b' =>
      if Ascii.eqb c "." then String c (strip_extension b')
      else before_last_dot b
  end.

(** Entry [i] of [input_names] is the last component of the path of example
    [indices[i]], cut before its first dot. *)
Definition named_by_first_dot {feat} (self : DatasetBase feat)
    (indices : list nat) (arr : arrays feat) : Prop :=
  ∀ i x, indices !! i = Some x →
    ∃ path dir name ext,
      input_paths self !! x = Some path
      ∧ input_names arr !! i = Some (Some name)
      ∧ name = before_first_dot (basename path)
      ∧ path = String.append dir (String.append name ext)
      ∧ (dir = EmptyString ∨ ∃ d, dir = String.append d "/")
      ∧ contains "/" (String.append name ext) = false
      ∧ contains "." name = false
      ∧ (ext = EmptyString ∨ ∃ e, ext = String "." e).

(** The reading of "the name is the base name with its file extension
    stripped": entry [i] of [input_names] is [splitext(basename(path))[0]]. *)
Definition named_by_stripped_extension {feat} (self : DatasetBase feat)
    (indices : list nat) (arr : arrays feat) : Prop :=
  ∀ i x path, indices !! i = Some x → input_paths self !! x = Some path →
    input_names arr !! i = Some (Some (strip_extension (basename path))).

(** The computation [r] does not end in the error of the session check. *)
Definition no_session_error {A} (r : result A) : Prop :=
  ∀ e, r = Raise e → e ≠ ValueError session_message.

(** After the spec's words, "the largest divisor of the short batch's length
    that is <= replica_count": the largest divisor of [s] among
    [1, ..., g]. *)
Definition largest_divisor_le (s g : nat) : nat :=
  max_list (filter (λ i, s `mod` i = 0) (seq 1 g)).

(** ** Concrete corpora *)

(** Five utterances of 3, 3, 4, 4 and 5 frames with two features each,
    sorted by their numbers of frames. *)
Definition demo_corpus : corpus Z :=
  {| c_input_size := 2;
     c_input_paths :=
       ["/corpus/train/fadg0_si1279.npy"; "/corpus/train/faks0.sx223.npy";
        "mcmb0_sx10"; "/corpus/.cache/mdab0"; "/corpus/train/mjsw0.npy"];
     c_data_num := 5;
     c_input_list :=
       [replicate 3 [1; 1]; replicate 3 [2; 2]; replicate 4 [3; 3];
        replicate 4 [4; 4]; replicate 5 [5; 5]]%Z;
     c_label_list := [[7]; [3; 9]; []; [4]; [5; 6; 7]]%Z |}.

(** The object for a mode, a batch size and a number of replicas. *)
Definition demo (sorted : bool) (batch_size num_gpu : nat) : DatasetBase Z :=
  (__init__ "train" "phone" batch_size sorted num_gpu demo_corpus).1.

Definition demo_start : state nat := start (seq 0 5) 1.

(** The first three batches of the sorted corpus, two examples each. *)
Definition demo_sorted_epoch
  : list (list nat * batch Z (list (nat * nat * Z))) :=
  [([1; 0],
    Whole [replicate 3 [2; 2]; replicate 3 [1; 1]]%Z
      [(0, 0, 3%Z); (0, 1, 9%Z); (1, 0, 7%Z)] [3; 3]
      [Some "faks0"; Some "fadg0_si1279"]);
   ([2; 3],
    Whole [replicate 4 [3; 3]; replicate 4 [4; 4]]%Z
      [(1, 0, 4%Z)] [4; 4] [Some "mcmb0_sx10"; Some "mdab0"]);
   ([4],
    Whole [replicate 5 [5; 5]]%Z
      [(0, 0, 5%Z); (0, 1, 6%Z); (0, 2, 7%Z)] [5] [Some "mjsw0"])].

(** The first three batches without sorting. *)
Definition demo_random_epoch
  : list (list nat * batch Z (list (nat * nat * Z))) :=
  [([1; 2],
    Whole [replicate 3 [2; 2] ++ [[0; 0]]; replicate 4 [3; 3]]%Z
      [(0, 0, 3%Z); (0, 1, 9%Z)] [3; 4] [Some "faks0"; Some "mcmb0_sx10"]);
   ([4; 0],
    Whole [replicate 5 [5; 5]; replicate 3 [1; 1] ++ replicate 2 [0; 0]]%Z
      [(0, 0, 5%Z); (0, 1, 6%Z); (0, 2, 7%Z); (1, 0, 7%Z)] [5; 3]
      [Some "mjsw0"; Some "fadg0_si1279"]);
   ([3],
    Whole [replicate 4 [4; 4]]%Z [(0, 0, 4%Z)] [4] [Some "mdab0"])].

Definition demo_end : state nat :=
  {| rest := seq 0 5; gen := 4; stdout := ["---Next epoch---"];
     next_epoch_flag := true |}.

Definition demo_after_two : state nat :=
  {| rest := [4]; gen := 3; stdout := []; next_epoch_flag := false |}.

(** Two utterances out of order: one frame, then none. *)
Definition unsorted_corpus : corpus Z :=
  {| c_input_size := 2;
     c_input_paths := ["a.npy"; "b.npy"];
     c_data_num := 2;
     c_input_list := [[[1; 1]]; []]%Z;
     c_label_list := [[7]; [3]]%Z |}.

(** Six utterances, four replicas, one example per replica. *)
Definition demo6_corpus : corpus Z :=
  {| c_input_size := 2;
     c_input_paths := ["u0.npy"; "u1.npy"; "u2.npy"; "u3.npy"; "u4.npy"; "u5.npy"];
     c_data_num := 6;
     c_input_list :=
       [replicate 3 [1; 1]; replicate 3 [2; 2]; replicate 4 [3; 3];
        replicate 4 [4; 4]; replicate 5 [5; 5]; replicate 5 [6; 6]]%Z;
     c_label_list := [[7]; [3; 9]; []; [4]; [5; 6; 7]; [1]]%Z |}.

Definition demo6 : DatasetBase Z :=
  (__init__ "train" "phone" 1 true 4 demo6_corpus).1.

Definition demo6_start : state nat := start (seq 0 6) 1.

(** ** Further properties of batches, turns and runs *)

(** Entry [i] of [inputs_seq_len] is the number of frames of example
    [indices[i]]. *)
Definition lengths_are_frame_counts {feat} (self : DatasetBase feat)
    (indices : list nat) (arr : arrays feat) : Prop :=
  length (inputs_seq_len arr) = length indices
  ∧ ∀ i x, indices !! i = Some x →
      ∃ data, input_list self !! x = Some data
              ∧ inputs_seq_len arr !! i = Some (length data).

(** Each of the four arrays has [n] entries along the batch axis. *)
Definition holds_examples {feat} (n : nat) (arr : arrays feat) : Prop :=
  length (inputs arr) = n ∧ length (labels arr) = n
  ∧ length (inputs_seq_len arr) = n ∧ length (input_names arr) = n.

(** What a turn of the loop prints when it finds the pool [pool]. *)
Definition epoch_notice {feat} (self : DatasetBase feat) (size : nat)
    (pool : list nat) : list string :=
  if decide (size < length pool) then []
  else if decide (data_type self = "train") then ["---Next epoch---"]
  else [].

(** The yielded tuple is not sharded. *)
Definition is_whole {feat sparse} (out : batch feat sparse) : Prop :=
  match out with
  | Whole _ _ _ _ => True
  | Sharded _ _ _ _ => False
  end.

(** The error of [tf.split] on a batch that cannot be cut evenly. *)
Definition split_error : exn :=
  ValueError "Dimension size must be evenly divisible by the number of splits".

(** The yielded tuple is sharded: [d] slices of [m] examples in each of its
    four components. *)
Definition sharded_in {feat sparse} (d m : nat) (out : batch feat sparse) : Prop :=
  match out with
  | Whole _ _ _ _ => False
  | Sharded ins labels_st lens names =>
      evenly_split d m ins ∧ length labels_st = d
      ∧ evenly_split d m lens ∧ evenly_split d m names
  end.

(** The loader has stored [data_num] inputs, label sequences and paths, in
    whatever order. *)
Definition loaded {feat} (self : DatasetBase feat) : Prop :=
  length (input_list self) = data_num self
  ∧ length (label_list self) = data_num self
  ∧ length (input_paths self) = data_num self.

(** The errors of an empty draw and of a slice assignment that does not
    fit. *)
Definition empty_list_error : exn := IndexError "list index out of range".

Definition empty_max_error : exn := ValueError "max() arg is an empty sequence".

Definition broadcast_error : exn := ValueError "could not broadcast input array".

(** The indices that a turn of the loop takes from the pool in sorted mode,
    before it shuffles them. *)
Definition sorted_draw (size : nat) (pool : list nat) : list nat :=
  if decide (size < length pool) then take size pool else pool.

(** Row [i] of [labels] has the width of the longest label sequence of the
    batch, starts with the labels of example [indices[i]] and continues
    with [-1]. *)
Definition labels_are_padded {feat} (self : DatasetBase feat)
    (indices : list nat) (arr : arrays feat) : Prop :=
  ∀ i x, indices !! i = Some x →
    ∃ label lrow,
      label_list self !! x = Some label ∧ labels arr !! i = Some lrow
      ∧ length lrow = max_labels self indices
      ∧ take (length label) lrow = label
      ∧ (∀ t, length label ≤ t → t < length lrow → lrow !! t = Some padded_value).



(** ** More concrete corpora *)

(** A corpus without utterances. *)
Definition empty_corpus : corpus Z :=
  {| c_input_size := 2;
     c_input_paths := [];
     c_data_num := 0;
     c_input_list := [];
     c_label_list := [] |}.

(** Two utterances out of order: three frames, then two. *)
Definition disordered_corpus : corpus Z :=
  {| c_input_size := 2;
     c_input_paths := ["a.npy"; "b.npy"];
     c_data_num := 2;
     c_input_list := [replicate 3 [1; 1]; replicate 2 [2; 2]]%Z;
     c_label_list := [[7]; [3]]%Z |}.

(** The corpus of six utterances for a batch size and a number of
    replicas. *)
Definition demo6_with (batch_size num_gpu : nat) : DatasetBase Z :=
  (__init__ "train" "phone" batch_size true num_gpu demo6_corpus).1.

(** The state of the six utterances when two of them are left. *)
Definition demo6_two_left : state nat :=
  {| rest := [4; 5]; gen := 2; stdout := []; next_epoch_flag := false |}.

(** * Part II: lemmas and theorems *)

(** ** The counting generator *)

Lemma rotate_by_perm g l : rotate_by g l ≡ₚ l.
Proof.
  unfold rotate_by. rewrite Permutation_app_comm. by rewrite take_drop.
Qed.

#[global] Program Instance counter_random : RandomGen nat := {|
  shuffle := counter_shuffle;
  sample := counter_sample
|}.
Next Obligation. intros l g. apply rotate_by_perm. Qed.
Next Obligation.
  intros l k g Hk. cbn.
  rewrite length_take, (Permutation_length (rotate_by_perm g l)). lia.
Qed.
Next Obligation.
  intros l k g Hk. cbn. rewrite <-(rotate_by_perm g l) at 2.
  apply sublist_submseteq, sublist_take.
Qed.

(** ** Facts about the primitives *)

Lemma result_bind_Ok {A B} (f : A → result B) (m : result A) (b : B) :
  m ≫= f = Ok b ↔ ∃ a, m = Ok a ∧ f a = Ok b.
Proof.
  destruct m as [a|e]; cbn; split.
  - eauto.
  - by intros (a' & [= <-] & ?).
  - done.
  - by intros (? & [=] & _).
Qed.

Lemma map_result_Ok {A B} (f : A → result B) (l : list A) (bs : list B) :
  map_result f l = Ok bs ↔ Forall2 (λ a b, f a = Ok b) l bs.
Proof.
  revert bs. induction l as [|a l IH]; intros bs; cbn.
  - split; [intros [= <-]; constructor | by inversion 1].
  - split.
    + intros (b & Hb & (bs' & Hbs & [= <-])%result_bind_Ok)%result_bind_Ok.
      constructor; [done | by apply IH].
    + inversion 1 as [|? b ? bs' Hb Hbs]; subst.
      apply IH in Hbs. cbn in *. by rewrite Hb, Hbs.
Qed.

Lemma map_result_total {A B} (f : A → result B) (g : A → B) (l : list A) :
  Forall (λ a, f a = Ok (g a)) l → map_result f l = Ok (g <$> l).
Proof.
  intros Hl. apply map_result_Ok. induction Hl; constructor; auto.
Qed.

Lemma getitem_Ok {A} (l : list A) i a : getitem l i = Ok a ↔ l !! i = Some a.
Proof. unfold getitem. destruct (l !! i); split; congruence. Qed.

Lemma assign_prefix_fits {A} (row data : list A) :
  length data ≤ length row →
  assign_prefix row data = Ok (data ++ drop (length data) row).
Proof. intros. unfold assign_prefix. by rewrite decide_True. Qed.

Lemma assign_prefix_replicate {A} (n : nat) (pad : A) (data : list A) :
  length data ≤ n →
  assign_prefix (replicate n pad) data
  = Ok (data ++ replicate (n - length data) pad).
Proof.
  intros. rewrite assign_prefix_fits by by rewrite length_replicate.
  by rewrite drop_replicate.
Qed.

Lemma assign_prefix_length {A} (row data row' : list A) :
  assign_prefix row data = Ok row' → length row' = length row.
Proof.
  unfold assign_prefix. repeat case_decide; intros [= <-]; [|done].
  rewrite length_app, length_drop. lia.
Qed.

(** ** The filling loop as a map over the drawn indices *)

Section Filling.
Context {feat : Type} (fzero : feat).
Implicit Types (self : DatasetBase feat).

Lemma update_row_middle {A} (f : A → result A) (l1 l2 : list A) (a : A) :
  update_row f (length l1) (l1 ++ a :: l2)
  = a' ← f a; Ok (l1 ++ a' :: l2).
Proof.
  unfold update_row, getitem. rewrite list_lookup_middle by done. cbn.
  destruct (f a) as [a'|e]; cbn; [|done].
  by rewrite insert_app_r_alt, Nat.sub_diag by done.
Qed.

Lemma setitem_middle {A} (l1 l2 : list A) (a v : A) :
  setitem (l1 ++ a :: l2) (length l1) v = Ok (l1 ++ v :: l2).
Proof.
  unfold setitem. rewrite decide_True by (rewrite length_app; cbn; lia).
  by rewrite insert_app_r_alt, Nat.sub_diag by done.
Qed.

Lemma set_example_next self T L (done : list (filled feat)) (n x : nat) :
  set_example self
    (arrays_app (arrays_of done) (init_arrays fzero self (S n) T L))
    (length done, x)
  = r ← fill_example fzero self T L x;
    Ok (arrays_app (arrays_of (done ++ [r])) (init_arrays fzero self n T L)).
Proof.
  unfold set_example, fill_example, arrays_app, arrays_of, init_arrays. cbn.
  destruct (getitem (input_list self) x) as [data_i|e]; cbn; [|done].
  rewrite <-(length_fmap f_input done) at 1. rewrite update_row_middle.
  destruct (assign_prefix _ data_i) as [row|e]; cbn; [|done].
  destruct (getitem (label_list self) x) as [label|e]; cbn; [|done].
  rewrite <-(length_fmap f_label done) at 1. rewrite update_row_middle.
  destruct (assign_prefix _ label) as [lrow|e]; cbn; [|done].
  rewrite <-(length_fmap f_len done) at 1. rewrite setitem_middle. cbn.
  destruct (getitem (input_paths self) x) as [path|e]; cbn; [|done].
  rewrite <-(length_fmap f_name done) at 1. rewrite setitem_middle. cbn.
  rewrite !fmap_app. cbn. by rewrite <-!(assoc_L (++)).
Qed.

Lemma for_each_set_example self T L (indices : list nat) (done : list (filled feat)) :
  for_each (set_example self)
    (zip (seq (length done) (length indices)) indices)
    (arrays_app (arrays_of done) (init_arrays fzero self (length indices) T L))
  = rows ← map_result (fill_example fzero self T L) indices;
    Ok (arrays_of (done ++ rows)).
Proof.
  revert done. induction indices as [|x indices IH]; intros done.
  - unfold arrays_app, arrays_of. cbn. by rewrite !app_nil_r.
  - cbn [length seq zip_with for_each map_result]. rewrite set_example_next.
    destruct (fill_example fzero self T L x) as [r|e]; cbn; [|done].
    specialize (IH (done ++ [r])). rewrite length_app in IH. cbn in IH.
    rewrite Nat.add_1_r in IH. rewrite IH.
    destruct (map_result _ indices) as [rows|e]; cbn; [|done].
    by rewrite <-(assoc_L (++)).
Qed.

(** The loop with in-place updates computes the rows one by one. *)
Lemma fill_arrays_rows self (indices : list nat) (T L : nat) :
  fill_arrays fzero self indices T L
  = rows ← map_result (fill_example fzero self T L) indices; Ok (arrays_of rows).
Proof.
  unfold fill_arrays, enumerate.
  exact (for_each_set_example self T L indices []).
Qed.
End Filling.

(** ** The remaining pool *)

Lemma ascending_seq a n : ascending (seq a n).
Proof.
  revert a. induction n as [|n IH]; intros a; cbn; constructor; [apply IH|].
  apply Forall_forall. intros x [? ?]%elem_of_seq. lia.
Qed.

Lemma ascending_NoDup l : ascending l → NoDup l.
Proof.
  induction 1 as [|x l _ IH Hx]; constructor; [|done].
  intros Hin. eapply Forall_forall in Hx; [|done]. lia.
Qed.

Lemma ascending_sublist l k : k `sublist_of` l → ascending l → ascending k.
Proof.
  intros Hsub Hl. revert k Hsub.
  induction Hl as [|x l _ IH Hx]; intros k Hsub.
  - apply sublist_nil_r in Hsub as ->. constructor.
  - apply sublist_cons_r in Hsub as [Hsub|(k' & -> & Hsub)]; [by apply IH|].
    constructor; [by apply IH|].
    apply Forall_forall. intros y Hy.
    eapply Forall_forall in Hx; [done|]. by eapply elem_of_sublist.
Qed.



Lemma list_difference_nil (l : list nat) : list_difference l [] = l.
Proof.
  induction l as [|y l IH]; cbn; [done|].
  case_decide as Hy; [by apply elem_of_nil in Hy|]. by rewrite IH.
Qed.


Lemma submseteq_NoDup (l k : list nat) : k ⊆+ l → NoDup l → NoDup k.
Proof.
  intros (k' & Hk)%submseteq_Permutation Hl. rewrite Hk in Hl.
  by apply NoDup_app in Hl as (? & _ & _).
Qed.

Lemma list_difference_perm (l k : list nat) :
  NoDup l → k ⊆+ l → k ++ list_difference l k ≡ₚ l.
Proof.
  intros Hl Hk. apply NoDup_Permutation; [|done|].
  - apply NoDup_app. split_and!.
    + by eapply submseteq_NoDup.
    + intros x Hx. rewrite list_elem_of_difference. tauto.
    + by apply NoDup_list_difference.
  - intros x. rewrite elem_of_app, list_elem_of_difference.
    split; [intros [?|[??]]; [by eapply elem_of_submseteq|done]|].
    intros ?. destruct (decide (x ∈ k)); tauto.
Qed.

Lemma ascending_last_max l x m : ascending l → last l = Some m → x ∈ l → x ≤ m.
Proof.
  intros Hl (l' & ->)%last_Some [Hx|Hx%list_elem_of_singleton]%elem_of_app; [|lia].
  apply StronglySorted_app_1_elem_of with (x1 := x) (x2 := m) in Hl;
    [lia|done|by left].
Qed.

Lemma pool_ok_seq {feat} (self : DatasetBase feat) :
  pool_ok self (seq 0 (data_num self)).
Proof.
  split; [apply ascending_seq|].
  apply Forall_forall. intros x [? ?]%elem_of_seq. lia.
Qed.


(** ** Running the generator: the indices drawn and the pool *)

Section Runs.
Context {feat : Type} (fzero : feat).
Context {rng : Type} `{!RandomGen rng}.
Context {Session sparse : Type}.
Context (list2sparsetensor : list (list Z) → Z → sparse).

Implicit Types (self : DatasetBase feat) (st : state rng).

Lemma bind_run {A B} (m : M rng A) (f : A → M rng B) st :
  (m ≫= f) st
  = match m st with
    | (Ok a, st') => f a st'
    | (Raise e, st') => (Raise e, st')
    end.
Proof. reflexivity. Qed.

Lemma bind_Ok {A B} (m : M rng A) (f : A → M rng B) st b st' :
  (m ≫= f) st = (Ok b, st')
  ↔ ∃ a st1, m st = (Ok a, st1) ∧ f a st1 = (Ok b, st').
Proof.
  rewrite bind_run. destruct (m st) as [[a|e] st1]; split.
  - eauto.
  - by intros (? & ? & [= <- <-] & ?).
  - done.
  - by intros (? & ? & [=] & _).
Qed.

Lemma next_epoch_run self st : next_epoch self st = (Ok (), rollover self st).
Proof.
  unfold next_epoch, rollover. rewrite !bind_run. cbn.
  case_decide; cbn; [done|]. by rewrite app_nil_r.
Qed.

Lemma draw_sorted_run self bs st :
  draw_sorted self bs st
  = if decide (bs < length (rest st))
    then (Ok (take bs (rest st)), remove_drawn st (take bs (rest st)))
    else (Ok (rest st), rollover self st).
Proof.
  unfold draw_sorted. rewrite bind_run. cbn. case_decide; [done|].
  by rewrite bind_run, next_epoch_run.
Qed.

Lemma draw_random_run self bs st :
  draw_random self bs st
  = if decide (bs < length (rest st))
    then (Ok (sample (rest st) bs (gen st)).1,
          set_gen (remove_drawn st (sample (rest st) bs (gen st)).1)
                  (sample (rest st) bs (gen st)).2)
    else (Ok (shuffle (rest st) (gen st)).1,
          set_gen (rollover self st) (shuffle (rest st) (gen st)).2).
Proof.
  unfold draw_random. rewrite bind_run. cbn. case_decide as Hlt.
  - rewrite bind_run. unfold random_sample.
    rewrite decide_True by lia. unfold with_random. cbn.
    by destruct (sample (rest st) bs (gen st)).
  - rewrite bind_run, next_epoch_run. unfold with_random. cbn.
    by destruct (shuffle (rest st) (gen st)).
Qed.
End Runs.

(** ** The arrays of a batch, in closed form *)

Section Padding.
Context {feat : Type} (fzero : feat).
Implicit Types (self : DatasetBase feat).

Lemma getitem_default {A} (l : list A) (d : A) (i : nat) :
  i < length l → getitem l i = Ok (default d (l !! i)).
Proof.
  intros [a Ha]%lookup_lt_is_Some. unfold getitem. by rewrite Ha.
Qed.

Lemma getitem_Ok_lt {A} (l : list A) (i : nat) (a : A) :
  getitem l i = Ok a → i < length l.
Proof. intros ?%getitem_Ok. by eapply lookup_lt_Some. Qed.

Lemma take_indices_Ok {A} (l : list A) (d : A) (idx : list nat) (xs : list A) :
  take_indices l idx = Ok xs
  ↔ Forall (λ i, i < length l) idx ∧ xs = (λ i, default d (l !! i)) <$> idx.
Proof.
  unfold take_indices. rewrite map_result_Ok. split.
  - induction 1 as [|i x idx xs Hi%getitem_Ok _ [IH1 IH2]]; [done|].
    split; [constructor; [by eapply lookup_lt_Some|done]|].
    cbn. by rewrite Hi, IH2.
  - intros [Hidx ->]. induction Hidx as [|i idx Hi _ IH]; constructor; [|done].
    by apply getitem_default.
Qed.

Lemma fill_example_fits self T L x :
  in_range self x → length (frames self x) ≤ T → length (label_seq self x) ≤ L →
  fill_example fzero self T L x = Ok (pad_example fzero self T L x).
Proof.
  intros (Hi & Hl & Hp) HT HL. unfold fill_example.
  rewrite (getitem_default _ [] _ Hi). cbn.
  rewrite assign_prefix_replicate by done. cbn.
  rewrite (getitem_default _ [] _ Hl). cbn.
  rewrite assign_prefix_replicate by done. cbn.
  by rewrite (getitem_default _ EmptyString _ Hp).
Qed.

Lemma fill_example_in_range self T L x r :
  fill_example fzero self T L x = Ok r → in_range self x.
Proof.
  unfold fill_example.
  intros (data & Hd%getitem_Ok_lt & (row & _ & (label & Hl%getitem_Ok_lt &
    (lrow & _ & (path & Hp%getitem_Ok_lt & _)%result_bind_Ok)%result_bind_Ok
    )%result_bind_Ok)%result_bind_Ok)%result_bind_Ok.
  done.
Qed.

(** The filling loop succeeds on examples that fit, and then pads them. *)
Lemma fill_arrays_fits self indices T L :
  Forall (in_range self) indices →
  Forall (λ x, length (frames self x) ≤ T) indices →
  Forall (λ x, length (label_seq self x) ≤ L) indices →
  fill_arrays fzero self indices T L
  = Ok (arrays_of (pad_example fzero self T L <$> indices)).
Proof.
  intros Hr HT HL. rewrite fill_arrays_rows.
  rewrite (map_result_total _ (pad_example fzero self T L)); [done|].
  rewrite Forall_forall in Hr, HT, HL. apply Forall_forall. intros x Hx.
  apply fill_example_fits; auto.
Qed.

Lemma fill_arrays_in_range self indices T L arr :
  fill_arrays fzero self indices T L = Ok arr → Forall (in_range self) indices.
Proof.
  rewrite fill_arrays_rows.
  intros (rows & Hrows%map_result_Ok & _)%result_bind_Ok.
  induction Hrows as [|x r ? ? Hx%fill_example_in_range]; by constructor.
Qed.

Lemma py_max_Ok (l : list nat) m : py_max l = Ok m ↔ l ≠ [] ∧ m = max_list l.
Proof.
  destruct l; cbn; split; try done; [by intros [? _]|intros [= <-]|intros [_ ->]];
    done.
Qed.

Lemma max_list_fmap_le {A} (f : A → nat) (l : list A) :
  Forall (λ x, f x ≤ max_list (f <$> l)) l.
Proof.
  apply Forall_forall. intros x Hx.
  by apply max_list_elem_of_le, list_elem_of_fmap_2.
Qed.

Lemma max_list_upper (l : list nat) m :
  m ∈ l → Forall (λ n, n ≤ m) l → max_list l = m.
Proof.
  intros Hm Hl. apply Nat.le_antisymm; [|by apply max_list_elem_of_le].
  assert (l ≠ []) as Hne by (intros ->; by apply elem_of_nil in Hm).
  apply max_list_elem_of in Hne. by eapply Forall_forall in Hl.
Qed.
End Padding.

(** ** The two branches as pure functions of the drawn indices *)

Ltac run_bind := repeat (rewrite bind_run; cbn); cbn.

Ltac run_all := cbv beta delta [mbind M_bind mret M_ret]; cbn.

(** Case analysis on the [tf_split] that the left-hand side is waiting for. *)
Ltac destruct_head_result :=
  lazymatch goal with
  | |- ?lhs = _ =>
      lazymatch lhs with
      | match tf_split ?a ?n with Ok _ => _ | Raise _ => _ end =>
          destruct (tf_split a n)
      end
  end.

#[global] Arguments fill_arrays : simpl never.
#[global] Arguments take_indices : simpl never.
#[global] Arguments session_run : simpl never.
#[global] Arguments tf_split : simpl never.

Section Branches.
Context {feat : Type} (fzero : feat).
Context {rng : Type} `{!RandomGen rng}.

Implicit Types (self : DatasetBase feat) (st : state rng).

Lemma sorted_branch_run self bs st pre st1 :
  draw_sorted self bs st = (Ok pre, st1) →
  (sorted_branch fzero self bs st).1
  = (arr ← sorted_collate fzero self pre (shuffle pre (gen st1)).1;
     Ok ((shuffle pre (gen st1)).1, arr))
  ∧ same_but_gen (sorted_branch fzero self bs st).2 st1.
Proof.
  intros Hdraw. unfold sorted_branch, sorted_collate.
  rewrite bind_run, Hdraw. unfold lift.
  destruct (last_item pre) as [last_index|e]; run_bind; [|by repeat split].
  destruct (getitem (input_list self) last_index) as [data_last|e]; run_bind;
    [|by repeat split].
  destruct (take_indices (label_list self) pre) as [labs|e]; run_bind;
    [|by repeat split].
  destruct (py_max (length <$> labs)) as [max_seq_len|e]; run_bind;
    [|by repeat split].
  unfold with_random. destruct (shuffle pre (gen st1)) as [indices g]. run_bind.
  by destruct (fill_arrays _ _ _ _ _); run_bind; repeat split.
Qed.

Lemma random_branch_run self bs st indices st1 :
  draw_random self bs st = (Ok indices, st1) →
  (random_branch fzero self bs st).1
  = (arr ← random_collate fzero self indices; Ok (indices, arr))
  ∧ (random_branch fzero self bs st).2 = st1.
Proof.
  intros Hdraw. unfold random_branch, random_collate.
  rewrite bind_run, Hdraw. unfold lift.
  destruct (take_indices (input_list self) indices) as [data|e]; run_bind; [|done].
  destruct (py_max (length <$> data)) as [max_frame_num|e]; run_bind; [|done].
  destruct (take_indices (label_list self) indices) as [labs|e]; run_bind; [|done].
  destruct (py_max (length <$> labs)) as [max_seq_len|e]; run_bind; [|done].
  by destruct (fill_arrays _ _ _ _ _); run_bind.
Qed.

Lemma fmap_length_default {A} (l : list (list A)) (indices : list nat) :
  length <$> ((λ i, default [] (l !! i)) <$> indices)
  = (λ i, length (default [] (l !! i))) <$> indices.
Proof. by rewrite <-list_fmap_compose. Qed.

(** Without sorting the batch is the padded batch of the indices drawn. *)
Lemma random_collate_Ok self indices arr :
  random_collate fzero self indices = Ok arr
  ↔ indices ≠ [] ∧ Forall (in_range self) indices ∧ arr = padded fzero self indices.
Proof.
  unfold random_collate. split.
  - intros (data & [Hd ->]%(take_indices_Ok _ []) & (T & [Hne ->]%py_max_Ok &
      (labs & [Hl ->]%(take_indices_Ok _ []) & (L & [_ ->]%py_max_Ok & Hfill
      )%result_bind_Ok)%result_bind_Ok)%result_bind_Ok)%result_bind_Ok.
    rewrite !fmap_length_default in Hfill.
    pose proof (fill_arrays_in_range _ _ _ _ _ _ Hfill) as Hr.
    rewrite fill_arrays_fits in Hfill; [| done | |].
    + split_and!; [by intros -> | done | by injection Hfill as <-].
    + apply (max_list_fmap_le (λ x, length (frames self x))).
    + apply (max_list_fmap_le (λ x, length (label_seq self x))).
  - intros (Hne & Hr & ->).
    assert (Forall (λ i, i < length (input_list self)) indices) as Hd
      by (eapply Forall_impl; [exact Hr|unfold in_range; intros; lia]).
    assert (Forall (λ i, i < length (label_list self)) indices) as Hl
      by (eapply Forall_impl; [exact Hr|unfold in_range; intros; lia]).
    rewrite (proj2 (take_indices_Ok _ [] _ _) (conj Hd eq_refl)).
    rewrite (proj2 (take_indices_Ok _ [] _ _) (conj Hl eq_refl)).
    cbn [mbind result_bind]. rewrite !fmap_length_default.
    destruct indices as [|x indices]; [done|].
    cbn [py_max fmap list_fmap mbind result_bind].
    apply fill_arrays_fits; [done| |].
    + apply (max_list_fmap_le (λ x, length (frames self x))).
    + apply (max_list_fmap_le (λ x, length (label_seq self x))).
Qed.
End Branches.

(** ** The branch of a sorted dataset *)

Section SortedBranch.
Context {feat : Type} (fzero : feat).
Context {rng : Type} `{!RandomGen rng}.

Implicit Types (self : DatasetBase feat) (st : state rng).

Lemma last_item_Ok {A} (l : list A) (a : A) : last_item l = Ok a ↔ last l = Some a.
Proof. unfold last_item. destruct (last l); split; congruence. Qed.

Lemma max_frames_perm self l k : l ≡ₚ k → max_frames self l = max_frames self k.
Proof. intros Hp. unfold max_frames. by rewrite Hp. Qed.

Lemma max_labels_perm self l k : l ≡ₚ k → max_labels self l = max_labels self k.
Proof. intros Hp. unfold max_labels. by rewrite Hp. Qed.

(** In an ascending draw from a sorted dataset the last example is a
    longest one. *)
Lemma max_frames_last self pre last_index :
  sorted_by_frame_num self → ascending pre →
  last pre = Some last_index → last_index < length (input_list self) →
  max_frames self pre = length (frames self last_index).
Proof.
  intros Hsorted Hasc Hlast Hlt. apply max_list_upper.
  - apply (list_elem_of_fmap_2 (λ x, length (frames self x))).
    by apply last_Some_elem_of.
  - apply Forall_fmap, Forall_forall. intros x Hx. cbn.
    apply Hsorted; [|done]. by eapply ascending_last_max.
Qed.

Lemma sorted_collate_Ok self pre indices arr :
  sorted_by_frame_num self → ascending pre → indices ≡ₚ pre →
  sorted_collate fzero self pre indices = Ok arr
  ↔ pre ≠ [] ∧ Forall (in_range self) pre ∧ arr = padded fzero self indices.
Proof.
  intros Hsorted Hasc Hperm. unfold sorted_collate. split.
  - intros (li & Hlast%last_item_Ok & (data_last & Hdata & (labs &
      [Hl ->]%(take_indices_Ok _ []) & (L & [_ ->]%py_max_Ok & Hfill
      )%result_bind_Ok)%result_bind_Ok)%result_bind_Ok)%result_bind_Ok.
    pose proof (getitem_Ok_lt _ _ _ Hdata) as Hlt.
    rewrite (getitem_default _ [] _ Hlt) in Hdata. injection Hdata as <-.
    rewrite fmap_length_default in Hfill.
    pose proof (fill_arrays_in_range _ _ _ _ _ _ Hfill) as Hr.
    change (default [] (input_list self !! li)) with (frames self li) in Hfill.
    rewrite <-(max_frames_last self pre li), <-(max_frames_perm _ _ _ Hperm)
      in Hfill by done.
    change (max_list _) with (max_labels self pre) in Hfill.
    rewrite <-(max_labels_perm _ _ _ Hperm) in Hfill.
    rewrite fill_arrays_fits in Hfill; [| done | |].
    + split_and!; [by intros -> | by rewrite <-Hperm | by injection Hfill as <-].
    + apply (max_list_fmap_le (λ x, length (frames self x))).
    + apply (max_list_fmap_le (λ x, length (label_seq self x))).
  - intros (Hne & Hr & ->).
    assert (Forall (λ i, i < length (input_list self)) pre) as Hd
      by (eapply Forall_impl; [exact Hr|unfold in_range; intros; lia]).
    assert (Forall (λ i, i < length (label_list self)) pre) as Hl
      by (eapply Forall_impl; [exact Hr|unfold in_range; intros; lia]).
    destruct (last pre) as [li|] eqn:Hlast; [|by apply last_None in Hlast].
    assert (li < length (input_list self)) as Hlt.
    { eapply Forall_forall in Hd; [done|]. by apply last_Some_elem_of. }
    rewrite (proj2 (last_item_Ok _ _) Hlast). cbn [mbind result_bind].
    rewrite (getitem_default _ [] _ Hlt). cbn [mbind result_bind].
    rewrite (proj2 (take_indices_Ok _ [] _ _) (conj Hl eq_refl)).
    cbn [mbind result_bind]. rewrite fmap_length_default.
    destruct pre as [|x pre]; [done|].
    cbn [py_max fmap list_fmap mbind result_bind].
    change (default [] (input_list self !! li)) with (frames self li).
    rewrite <-(max_frames_last self (x :: pre) li),
      <-(max_frames_perm _ _ _ Hperm) by done.
    change (max_list _) with (max_labels self (x :: pre)).
    rewrite <-(max_labels_perm _ _ _ Hperm).
    apply fill_arrays_fits; [by rewrite Hperm| |].
    + apply (max_list_fmap_le (λ x, length (frames self x))).
    + apply (max_list_fmap_le (λ x, length (label_seq self x))).
Qed.
End SortedBranch.

(** ** One draw *)

Lemma list_difference_ext (l k k' : list nat) :
  (∀ x, x ∈ k ↔ x ∈ k') → list_difference l k = list_difference l k'.
Proof.
  intros Hk. induction l as [|y l IH]; cbn; [done|]. rewrite IH.
  repeat case_decide; try done; exfalso; firstorder.
Qed.

Section Draw.
Context {feat : Type} (fzero : feat).
Context {rng : Type} `{!RandomGen rng}.

Implicit Types (self : DatasetBase feat) (st : state rng).

Lemma collated_Ok (indices : list nat) (c : result (arrays feat))
    (P : Prop) (a : arrays feat) :
  (∀ arr, c = Ok arr ↔ P ∧ arr = a) →
  ∀ r, (arr ← c; Ok (indices, arr)) = Ok r ↔ P ∧ r = (indices, a).
Proof.
  intros Hc r. rewrite result_bind_Ok. split.
  - intros (arr & [? ->]%Hc & [= <-]). done.
  - intros [HP ->]. exists a. split; [by apply Hc|done].
Qed.

Lemma perm_nonempty (l k : list nat) : l ≡ₚ k → k ≠ [] → l ≠ [].
Proof. intros Hp Hne ->. by apply Permutation_nil_l in Hp. Qed.

Lemma perm_nonempty_range self (l k : list nat) :
  l ≡ₚ k →
  (k ≠ [] ∧ Forall (in_range self) k) ↔ (l ≠ [] ∧ Forall (in_range self) l).
Proof.
  intros Hp. split; intros [Hne Hr]; split.
  - intros ->. by apply Permutation_nil_l in Hp.
  - by rewrite Hp.
  - intros ->. by apply Permutation_nil_r in Hp.
  - by rewrite <-Hp.
Qed.

Lemma sorted_collate_in_range self pre indices arr :
  sorted_collate fzero self pre indices = Ok arr →
  pre ≠ [] ∧ Forall (in_range self) indices.
Proof.
  unfold sorted_collate.
  intros (li & Hlast%last_item_Ok & (data_last & _ & (labs & _ &
    (L & _ & Hfill)%result_bind_Ok)%result_bind_Ok)%result_bind_Ok
    )%result_bind_Ok.
  split; [by intros ->|by eapply fill_arrays_in_range].
Qed.

Lemma collated_in_range (indices : list nat) (c : result (arrays feat))
    (P : Prop) r :
  (∀ arr, c = Ok arr → P) → (arr ← c; Ok (indices, arr)) = Ok r →
  r.1 = indices ∧ P.
Proof. intros Hc (arr & ?%Hc & [= <-])%result_bind_Ok. done. Qed.

(** One draw: the indices, the pool afterwards, and the arrays. *)
Lemma mini_batch_spec self bs st :
  ∃ indices,
    drawn self bs st indices (mini_batch fzero self bs st).2
    ∧ (is_sorted self = true → bs < length (rest st) →
       indices ≡ₚ take bs (rest st))
    ∧ (∀ r, (mini_batch fzero self bs st).1 = Ok r →
         r.1 = indices ∧ indices ≠ [] ∧ Forall (in_range self) indices)
    ∧ ((is_sorted self = true → sorted_by_frame_num self ∧ ascending (rest st)) →
       ∀ r, (mini_batch fzero self bs st).1 = Ok r
            ↔ (indices ≠ [] ∧ Forall (in_range self) indices)
              ∧ r = (indices, padded fzero self indices)).
Proof.
  unfold mini_batch, drawn.
  destruct (is_sorted self) eqn:Hs.
  - pose proof (draw_sorted_run self bs st) as Hdraw.
    destruct (decide (bs < length (rest st))) as [Hlt|Hge].
    + apply (sorted_branch_run fzero) in Hdraw as [Hres (Hrest & Hout & Hflag)].
      set (pre := take bs (rest st)) in *.
      pose proof (shuffle_perm pre (gen (remove_drawn st pre))) as Hperm.
      exists (shuffle pre (gen (remove_drawn st pre))).1. split_and!.
      * rewrite Hperm. unfold pre. rewrite length_take. lia.
      * rewrite Hperm. apply sublist_submseteq, sublist_take.
      * rewrite Hrest. cbn. apply list_difference_ext. intros x. by rewrite Hperm.
      * by rewrite Hout.
      * by rewrite Hflag.
      * done.
      * intros r Hr. rewrite Hres in Hr.
        eapply collated_in_range in Hr as [? HP];
          [|intros ?; apply sorted_collate_in_range].
        destruct HP as [Hne ?]. apply (perm_nonempty _ _ Hperm) in Hne. tauto.
      * intros [Hsorted Hasc]; [done|].
        rewrite Hres. apply collated_Ok. intros arr.
        rewrite sorted_collate_Ok;
          [|done|eapply ascending_sublist; [apply sublist_take|done]|done].
        rewrite <-(perm_nonempty_range self _ _ Hperm). tauto.
    + apply (sorted_branch_run fzero) in Hdraw as [Hres (Hrest & Hout & Hflag)].
      set (pre := rest st) in *.
      pose proof (shuffle_perm pre (gen (rollover self st))) as Hperm.
      exists (shuffle pre (gen (rollover self st))).1. split_and!; try done.
      * intros r Hr. rewrite Hres in Hr.
        eapply collated_in_range in Hr as [? HP];
          [|intros ?; apply sorted_collate_in_range].
        destruct HP as [Hne ?]. apply (perm_nonempty _ _ Hperm) in Hne. tauto.
      * intros [Hsorted Hasc]; [done|].
        rewrite Hres. apply collated_Ok. intros arr.
        rewrite sorted_collate_Ok; [|done..].
        rewrite <-(perm_nonempty_range self _ _ Hperm). tauto.
  - pose proof (draw_random_run self bs st) as Hdraw.
    destruct (decide (bs < length (rest st))) as [Hlt|Hge].
    + apply (random_branch_run fzero) in Hdraw as [Hres Hst].
      exists (sample (rest st) bs (gen st)).1. rewrite Hst. split_and!; try done.
      * apply sample_length. lia.
      * apply sample_sub. lia.
      * intros r Hr. rewrite Hres in Hr.
        eapply collated_in_range in Hr as [? HP];
          [|intros ? (H1 & H2 & _)%random_collate_Ok; exact (conj H1 H2)].
        tauto.
      * intros _. rewrite Hres. apply collated_Ok. intros arr.
        rewrite random_collate_Ok. tauto.
    + apply (random_branch_run fzero) in Hdraw as [Hres Hst].
      exists (shuffle (rest st) (gen st)).1. rewrite Hst. split_and!; try done.
      * apply shuffle_perm.
      * intros r Hr. rewrite Hres in Hr.
        eapply collated_in_range in Hr as [? HP];
          [|intros ? (H1 & H2 & _)%random_collate_Ok; exact (conj H1 H2)].
        tauto.
      * intros _. rewrite Hres. apply collated_Ok. intros arr.
        rewrite random_collate_Ok. tauto.
Qed.
End Draw.

(** ** Sharding *)

Lemma chunks_length {A} (size n : nat) (l : list A) : length (chunks size n l) = n.
Proof. revert l. induction n as [|n IH]; intros l; cbn; [done|]. by rewrite IH. Qed.

Lemma chunks_sizes {A} (size n : nat) (l : list A) :
  length l = n * size → Forall (λ c, length c = size) (chunks size n l).
Proof.
  revert l. induction n as [|n IH]; intros l Hl; cbn; constructor.
  - rewrite length_take. lia.
  - apply IH. rewrite length_drop. lia.
Qed.

Lemma chunks_concat {A} (size n : nat) (l : list A) :
  length l = n * size → concat (chunks size n l) = l.
Proof.
  revert l. induction n as [|n IH]; intros l Hl; cbn.
  - by destruct l.
  - rewrite IH by (rewrite length_drop; lia). by rewrite take_drop.
Qed.

Lemma tf_split_Ok {A} (value : list A) (n : nat) (parts : list (list A)) :
  tf_split value n = Ok parts
  ↔ n ≠ 0 ∧ length value `mod` n = 0
    ∧ parts = chunks (length value `div` n) n value.
Proof.
  unfold tf_split. repeat case_decide; split; try done; try tauto.
  - by intros [= <-].
  - by intros (_ & _ & ->).
Qed.

(** The slices of a successful split: as many as asked for, of equal size,
    and in the order of the batch. *)
Lemma tf_split_shape {A} (value : list A) (n : nat) (parts : list (list A)) :
  tf_split value n = Ok parts →
  length parts = n ∧ Forall (λ c, length c = length value `div` n) parts
  ∧ concat parts = value.
Proof.
  intros (Hn & Hmod & ->)%tf_split_Ok.
  assert (length value = n * (length value `div` n)) as Hlen.
  { rewrite (Nat.div_mod_eq (length value) n) at 1. lia. }
  split_and!; [apply chunks_length|by apply chunks_sizes|by apply chunks_concat].
Qed.

Section Sharding.
Context {feat : Type} (fzero : feat).
Context {rng : Type} `{!RandomGen rng}.
Context {Session sparse : Type}.
Context (list2sparsetensor : list (list Z) → Z → sparse).

Implicit Types (self : DatasetBase feat) (st : state rng).
Implicit Types (session : option Session).

Lemma map_result_session_run {A} (s : Session) (l : list A) :
  map_result (session_run (Some s)) l = Ok l.
Proof.
  induction l as [|a l IH]; cbn [map_result]; [done|]. by rewrite IH.
Qed.

Lemma zip_replicate_fmap (l : list (list (list Z))) :
  (λ p : list (list Z) * Z, list2sparsetensor p.1 p.2)
    <$> zip l (replicate (length l) padded_value)
  = (λ m, list2sparsetensor m padded_value) <$> l.
Proof. induction l as [|a l IH]; cbn; [done|]. by rewrite IH. Qed.

Lemma split_batch_whole self session arr st :
  ¬ 1 < num_gpu self →
  split_batch list2sparsetensor self session arr st
  = (Ok (Whole (inputs arr) (list2sparsetensor (labels arr) padded_value)
           (inputs_seq_len arr) (input_names arr)), st).
Proof. intros Hg. unfold split_batch. by rewrite decide_False. Qed.

Lemma split_batch_sharded self (s : Session) arr st :
  1 < num_gpu self →
  split_batch list2sparsetensor self (Some s) arr st
  = (shard list2sparsetensor arr (divide_num_of self st), flag_off st).
Proof.
  intros Hg. unfold split_batch, shard, divide_num_of, flag_off.
  rewrite decide_True by done. unfold lift, get_flag, get_rest. run_bind.
  destruct st as [pool g out [|]]; run_bind.
  all: unfold put_flag; run_all.
  all: repeat (destruct_head_result; run_all; try done).
  all: rewrite !map_result_session_run; run_all.
  all: by rewrite zip_replicate_fmap.
Qed.

(** Sharding touches neither the pool nor what was printed. *)
Lemma split_batch_rest self session arr st :
  rest (split_batch list2sparsetensor self session arr st).2 = rest st
  ∧ stdout (split_batch list2sparsetensor self session arr st).2 = stdout st.
Proof.
  destruct (decide (1 < num_gpu self)) as [Hg|Hg];
    [|by rewrite split_batch_whole].
  unfold split_batch. rewrite decide_True by done.
  unfold lift, get_flag, get_rest, put_flag.
  destruct st as [pool g out [|]]; run_all.
  all: repeat (match goal with
               | |- context [match ?r with Ok _ => _ | Raise _ => _ end] =>
                   destruct r
               end; run_all; try done).
Qed.

Lemma next_batch_iter_run self bs session st :
  next_batch_iter fzero list2sparsetensor self bs session st
  = match mini_batch fzero self bs st with
    | (Ok d, st1) =>
        match split_batch list2sparsetensor self session d.2 st1 with
        | (Ok out, st2) => (Ok (d.1, out), st2)
        | (Raise e, st2) => (Raise e, st2)
        end
    | (Raise e, st1) => (Raise e, st1)
    end.
Proof.
  unfold next_batch_iter. rewrite bind_run.
  destruct (mini_batch fzero self bs st) as [[d|e] st1]; [|done].
  rewrite bind_run. by destruct (split_batch _ _ _ _ _) as [[out|e] st2].
Qed.

(** A turn of the loop leaves the pool as the draw left it. *)
Lemma next_batch_iter_rest self bs session st :
  rest (next_batch_iter fzero list2sparsetensor self bs session st).2
  = rest (mini_batch fzero self bs st).2
  ∧ stdout (next_batch_iter fzero list2sparsetensor self bs session st).2
    = stdout (mini_batch fzero self bs st).2.
Proof.
  rewrite next_batch_iter_run.
  destruct (mini_batch fzero self bs st) as [[d|e] st1]; [|done].
  pose proof (split_batch_rest self session d.2 st1) as Hsplit.
  by destruct (split_batch _ _ _ _ _) as [[out|e] st2].
Qed.

Lemma next_batch_iter_Ok self bs session st indices out st' :
  next_batch_iter fzero list2sparsetensor self bs session st
  = (Ok (indices, out), st')
  ↔ ∃ arr st1,
      mini_batch fzero self bs st = (Ok (indices, arr), st1)
      ∧ split_batch list2sparsetensor self session arr st1 = (Ok out, st').
Proof.
  rewrite next_batch_iter_run.
  destruct (mini_batch fzero self bs st) as [[[idx arr]|e] st1]; cbn.
  - destruct (split_batch _ _ _ _ _) as [[out'|e] st2] eqn:Hsplit; split.
    + intros [= -> -> ->]. eauto.
    + intros (? & ? & [= <- <- <-] & Hs). congruence.
    + done.
    + intros (? & ? & [= <- <- <-] & Hs). congruence.
  - split; [done|]. by intros (? & ? & [=] & _).
Qed.
End Sharding.

(** ** The padded batch, entry by entry *)

Lemma pad_to_length {A} (n : nat) (pad : A) (l : list A) :
  length l ≤ n → length (pad_to n pad l) = n.
Proof. intros. unfold pad_to. rewrite length_app, length_replicate. lia. Qed.

Lemma pad_to_prefix {A} (n : nat) (pad : A) (l : list A) :
  take (length l) (pad_to n pad l) = l.
Proof. unfold pad_to. by rewrite take_app_length. Qed.

Lemma pad_to_beyond {A} (n : nat) (pad : A) (l : list A) (t : nat) :
  length l ≤ t → t < length (pad_to n pad l) → pad_to n pad l !! t = Some pad.
Proof.
  unfold pad_to. rewrite length_app, length_replicate. intros Hle Hlt.
  rewrite lookup_app_r by done. apply lookup_replicate_2. lia.
Qed.

Section PaddedEntries.
Context {feat : Type} (fzero : feat).
Implicit Types (self : DatasetBase feat).

Lemma in_range_lookup self x :
  in_range self x →
  input_list self !! x = Some (frames self x)
  ∧ label_list self !! x = Some (label_seq self x)
  ∧ input_paths self !! x = Some (path_of self x).
Proof.
  intros ([d Hd]%lookup_lt_is_Some & [l Hl]%lookup_lt_is_Some
          & [p Hp]%lookup_lt_is_Some).
  unfold frames, label_seq, path_of. by rewrite Hd, Hl, Hp.
Qed.

Lemma padded_lookup self indices i x :
  indices !! i = Some x →
  inputs (padded fzero self indices) !! i
  = Some (pad_to (max_frames self indices) (zero_frame fzero self) (frames self x))
  ∧ labels (padded fzero self indices) !! i
    = Some (pad_to (max_labels self indices) padded_value (label_seq self x))
  ∧ inputs_seq_len (padded fzero self indices) !! i = Some (length (frames self x))
  ∧ input_names (padded fzero self indices) !! i
    = Some (Some (before_first_dot (basename (path_of self x)))).
Proof.
  intros Hx. unfold padded, arrays_of. cbn.
  rewrite <-!list_fmap_compose, !list_lookup_fmap, Hx. done.
Qed.

Lemma padded_length self indices :
  length (inputs (padded fzero self indices)) = length indices
  ∧ length (labels (padded fzero self indices)) = length indices
  ∧ length (inputs_seq_len (padded fzero self indices)) = length indices
  ∧ length (input_names (padded fzero self indices)) = length indices.
Proof. unfold padded, arrays_of. cbn. by rewrite !length_fmap. Qed.

Lemma max_frames_ge self indices x :
  x ∈ indices → length (frames self x) ≤ max_frames self indices.
Proof.
  intros Hx. pose proof (max_list_fmap_le (λ x, length (frames self x)) indices) as H.
  by eapply Forall_forall in H.
Qed.

Lemma max_labels_ge self indices x :
  x ∈ indices → length (label_seq self x) ≤ max_labels self indices.
Proof.
  intros Hx.
  pose proof (max_list_fmap_le (λ x, length (label_seq self x)) indices) as H.
  by eapply Forall_forall in H.
Qed.

(** Every row of the padded batch has the width of the longest example. *)
Lemma padded_widths self indices :
  Forall (λ row, length row = max_frames self indices)
         (inputs (padded fzero self indices))
  ∧ Forall (λ row, length row = max_labels self indices)
           (labels (padded fzero self indices)).
Proof.
  unfold padded, arrays_of. cbn. rewrite <-!list_fmap_compose. split.
  - apply Forall_fmap, Forall_forall. intros x Hx. cbn.
    by apply pad_to_length, max_frames_ge.
  - apply Forall_fmap, Forall_forall. intros x Hx. cbn.
    by apply pad_to_length, max_labels_ge.
Qed.
End PaddedEntries.

(** ** What is yielded *)

Section Yield.
Context {feat : Type} (fzero : feat).
Context {rng : Type} `{!RandomGen rng}.
Context {Session sparse : Type}.
Context (list2sparsetensor : list (list Z) → Z → sparse).

Implicit Types (self : DatasetBase feat) (st : state rng).
Implicit Types (session : option Session).

Lemma shard_Ok (arr : arrays feat) (n : nat) (out : batch feat sparse) :
  shard list2sparsetensor arr n = Ok out
  ↔ ∃ ins labs lens names,
      tf_split (inputs arr) n = Ok ins ∧ tf_split (labels arr) n = Ok labs
      ∧ tf_split (inputs_seq_len arr) n = Ok lens
      ∧ tf_split (input_names arr) n = Ok names
      ∧ out = Sharded ins ((λ m, list2sparsetensor m padded_value) <$> labs)
                lens names.
Proof.
  unfold shard. split.
  - intros (ins & ? & (labs & ? & (lens & ? & (names & ? & [= <-]
      )%result_bind_Ok)%result_bind_Ok)%result_bind_Ok)%result_bind_Ok.
    by exists ins, labs, lens, names.
  - intros (ins & labs & lens & names & -> & -> & -> & -> & ->). done.
Qed.

Lemma shard_yields (arr : arrays feat) (n : nat) (out : batch feat sparse) :
  shard list2sparsetensor arr n = Ok out → yields list2sparsetensor arr out.
Proof.
  intros (ins & labs & lens & names & Hi & Hl & Hs & Hn & ->)%shard_Ok.
  apply tf_split_shape in Hi as (_ & _ & Hi), Hl as (_ & _ & Hl),
    Hs as (_ & _ & Hs), Hn as (_ & _ & Hn).
  cbn. split_and!; [done|by exists labs|done..].
Qed.

Lemma split_batch_no_session self arr st out st' :
  1 < num_gpu self →
  split_batch list2sparsetensor self (None : option Session) arr st
  ≠ (Ok out, st').
Proof.
  intros Hg. unfold split_batch. rewrite decide_True by done.
  unfold lift, get_flag, get_rest, put_flag.
  destruct st as [pool g msgs [|]]; run_all.
  all: destruct (tf_split (inputs arr) _) as [ins|e] eqn:Hins; run_all; [|done].
  all: destruct (tf_split (labels arr) _) as [labs|e]; run_all; [|done].
  all: destruct (tf_split (inputs_seq_len arr) _) as [lens|e]; run_all; [|done].
  all: destruct (tf_split (input_names arr) _) as [names|e]; run_all; [|done].
  all: apply tf_split_Ok in Hins as (Hn & _ & ->).
  all: match type of Hn with ?n ≠ 0 => destruct n as [|n'] eqn:En; [done|] end.
  all: cbn [chunks map_result]; unfold session_run at 1; run_all; done.
Qed.

Lemma split_batch_yields self session arr st out st' :
  split_batch list2sparsetensor self session arr st = (Ok out, st') →
  yields list2sparsetensor arr out.
Proof.
  destruct (decide (1 < num_gpu self)) as [Hg|Hg].
  - destruct session as [s|]; [|intros H; by apply split_batch_no_session in H].
    rewrite split_batch_sharded by done. intros [= Hs _].
    by eapply shard_yields.
  - rewrite split_batch_whole by done. by intros [= <- _].
Qed.
End Yield.

(** ** Names and lengths of a batch, whatever the order of the dataset *)

Section Names.
Context {feat : Type} (fzero : feat).
Context {rng : Type} `{!RandomGen rng}.

Implicit Types (self : DatasetBase feat) (st : state rng).

Lemma fill_example_name self T L x r :
  fill_example fzero self T L x = Ok r →
  f_name r = name_of self x ∧ f_len r = length (frames self x).
Proof.
  intros Hr. pose proof (fill_example_in_range _ _ _ _ _ _ Hr) as (Hi & _ & Hp).
  revert Hr. unfold fill_example.
  rewrite (getitem_default _ [] _ Hi). cbn [mbind result_bind].
  intros (row & _ & (label & _ & (lrow & _ & Hr
    )%result_bind_Ok)%result_bind_Ok)%result_bind_Ok.
  rewrite (getitem_default _ EmptyString _ Hp) in Hr. by injection Hr as <-.
Qed.

Lemma fill_arrays_names self indices T L arr :
  fill_arrays fzero self indices T L = Ok arr →
  input_names arr = name_of self <$> indices
  ∧ inputs_seq_len arr = (λ x, length (frames self x)) <$> indices.
Proof.
  rewrite fill_arrays_rows.
  intros (rows & Hrows%map_result_Ok & [= <-])%result_bind_Ok. cbn.
  induction Hrows as [|x r indices rows [Hn Hl]%fill_example_name _ [IH1 IH2]];
    [done|].
  cbn. by rewrite Hn, Hl, IH1, IH2.
Qed.

Lemma sorted_collate_fill self pre indices arr :
  sorted_collate fzero self pre indices = Ok arr →
  ∃ T L, fill_arrays fzero self indices T L = Ok arr.
Proof.
  unfold sorted_collate.
  intros (li & _ & (data_last & _ & (labs & _ & (L & _ & Hfill
    )%result_bind_Ok)%result_bind_Ok)%result_bind_Ok)%result_bind_Ok.
  eauto.
Qed.

Lemma random_collate_fill self indices arr :
  random_collate fzero self indices = Ok arr →
  ∃ T L, fill_arrays fzero self indices T L = Ok arr.
Proof.
  unfold random_collate.
  intros (data & _ & (T & _ & (labs & _ & (L & _ & Hfill
    )%result_bind_Ok)%result_bind_Ok)%result_bind_Ok)%result_bind_Ok.
  eauto.
Qed.

Lemma mini_batch_fill self bs st indices arr st' :
  mini_batch fzero self bs st = (Ok (indices, arr), st') →
  ∃ T L, fill_arrays fzero self indices T L = Ok arr.
Proof.
  intros Hrun. assert ((mini_batch fzero self bs st).1 = Ok (indices, arr)) as Hres
    by by rewrite Hrun.
  clear Hrun. revert Hres. unfold mini_batch. destruct (is_sorted self).
  - pose proof (draw_sorted_run self bs st) as Hdraw.
    destruct (decide (bs < length (rest st)));
      apply (sorted_branch_run fzero) in Hdraw as [-> _];
      intros (arr' & Hc & [= <- <-])%result_bind_Ok;
      by eapply sorted_collate_fill.
  - pose proof (draw_random_run self bs st) as Hdraw.
    destruct (decide (bs < length (rest st)));
      apply (random_branch_run fzero) in Hdraw as [-> _];
      intros (arr' & Hc & [= <- <-])%result_bind_Ok;
      by eapply random_collate_fill.
Qed.
End Names.

(** ** File names *)

Lemma append_cons (c : ascii) (a b : string) :
  String.append (String c a) b = String c (String.append a b).
Proof. reflexivity. Qed.

Lemma basename_split (p : string) :
  ∃ dir, p = String.append dir (basename p)
         ∧ contains "/" (basename p) = false
         ∧ (dir = EmptyString ∨ ∃ d, dir = String.append d "/").
Proof.
  induction p as [|c p (dir & Hp & Hb & Hdir)]; [by exists EmptyString; auto|].
  cbn [basename]. destruct (contains "/" (String c p)) eqn:Hc.
  - exists (String c dir). split_and!; [by rewrite append_cons, <-Hp|done|].
    right.
    destruct Hdir as [->|[d ->]]; [|by exists (String c d)].
    exists EmptyString. change (p = basename p) in Hp. rewrite <-Hp in Hb.
    cbn in Hc.
    rewrite Hb, orb_false_r in Hc. by apply Ascii.eqb_eq in Hc as ->.
  - exists EmptyString. auto.
Qed.

Lemma before_first_dot_split (s : string) :
  ∃ ext, s = String.append (before_first_dot s) ext
         ∧ contains "." (before_first_dot s) = false
         ∧ (ext = EmptyString ∨ ∃ e, ext = String "." e).
Proof.
  induction s as [|c s (ext & Hs & Hn & Hext)]; [by exists EmptyString; auto|].
  cbn [before_first_dot]. destruct (Ascii.eqb c ".") eqn:Hc.
  - apply Ascii.eqb_eq in Hc as ->. exists (String "." s). eauto.
  - exists ext. split_and!; [by rewrite append_cons, <-Hs| |done].
    cbn. by rewrite Hc, Hn.
Qed.

Lemma before_first_dot_no_dot (s : string) :
  contains "." s = false → before_first_dot s = s.
Proof.
  induction s as [|c s IH]; [done|]. cbn.
  intros [Hc Hs]%orb_false_elim. by rewrite Hc, IH.
Qed.

(** Cutting at the first dot strips the extension exactly when what is left
    of the stripped name has no dot. *)
Lemma before_first_dot_strip_extension (b : string) :
  contains "." (strip_extension b) = false →
  before_first_dot b = strip_extension b.
Proof.
  destruct b as [|c b]; [done|]. cbn [strip_extension].
  destruct (Ascii.eqb c ".") eqn:Hc; [cbn; by rewrite Hc|].
  generalize (String c b). clear. intros s.
  induction s as [|c s IH]; [done|]. cbn [before_last_dot before_first_dot].
  destruct (contains "." s) eqn:Hs.
  - cbn. intros [Hc Hr]%orb_false_elim. by rewrite Hc, IH.
  - destruct (Ascii.eqb c ".") eqn:Hc; [done|]. intros _.
    by rewrite before_first_dot_no_dot.
Qed.

(** ** Properties of a batch *)

Section BatchProperties.
Context {feat : Type} (fzero : feat).
Implicit Types (self : DatasetBase feat).

Lemma padded_padded_beyond_length self indices :
  Forall (in_range self) indices →
  padded_beyond_length fzero self indices (padded fzero self indices).
Proof.
  intros Hr i x Hx.
  assert (x ∈ indices) as Hin by (apply list_elem_of_lookup; eauto).
  eapply Forall_forall in Hr; [|done].
  apply in_range_lookup in Hr as (Hd & Hl & _).
  destruct (padded_lookup fzero self indices i x Hx) as (Hi & Hlab & _).
  eexists _, _, _, _. split_and!; try done.
  - apply pad_to_prefix.
  - intros t. apply pad_to_beyond.
  - apply pad_to_prefix.
  - intros t. apply pad_to_beyond.
Qed.

Lemma Forall2_lookup_fmap {A} (l : list A) (f : nat → A) (indices : list nat) :
  Forall (λ x, l !! x = Some (f x)) indices →
  Forall2 (λ x a, l !! x = Some a) indices (f <$> indices).
Proof. induction 1; constructor; done. Qed.

Lemma padded_widths_are_maxima self indices :
  Forall (in_range self) indices →
  widths_are_maxima self indices (padded fzero self indices).
Proof.
  intros Hr. exists (frames self <$> indices), (label_seq self <$> indices).
  destruct (padded_length fzero self indices) as (Hli & Hll & _).
  destruct (padded_widths fzero self indices) as [Hwi Hwl].
  rewrite <-!list_fmap_compose.
  split_and!; try done.
  - apply Forall2_lookup_fmap. eapply Forall_impl; [done|].
    by intros x (? & _)%in_range_lookup.
  - apply Forall2_lookup_fmap. eapply Forall_impl; [done|].
    by intros x (_ & ? & _)%in_range_lookup.
  - intros d Hd. destruct indices as [|x [|??]]; try done.
    injection Hd as <-. eapply Forall_impl; [done|].
    intros row ->. unfold max_frames. cbn. lia.
  - intros l Hl. destruct indices as [|x [|??]]; try done.
    injection Hl as <-. eapply Forall_impl; [done|].
    intros row ->. unfold max_labels. cbn. lia.
Qed.

Lemma names_named_by_first_dot self indices arr :
  Forall (in_range self) indices →
  input_names arr = name_of self <$> indices →
  named_by_first_dot self indices arr.
Proof.
  intros Hr Hnames i x Hx.
  assert (x ∈ indices) as Hin by (apply list_elem_of_lookup; eauto).
  eapply Forall_forall in Hr; [|done].
  apply in_range_lookup in Hr as (_ & _ & Hp).
  destruct (basename_split (path_of self x)) as (dir & Hpath & Hslash & Hdir).
  destruct (before_first_dot_split (basename (path_of self x)))
    as (ext & Hbase & Hdot & Hext).
  exists (path_of self x), dir, (before_first_dot (basename (path_of self x))), ext.
  split_and!; try done.
  - by rewrite Hnames, list_lookup_fmap, Hx.
  - by rewrite <-Hbase.
  - by rewrite <-Hbase.
Qed.
End BatchProperties.

(** ** The generator as a whole *)

Section Generator.
Context {feat : Type} (fzero : feat).
Context {rng : Type} `{!RandomGen rng}.
Context {Session sparse : Type}.
Context (list2sparsetensor : list (list Z) → Z → sparse).

Implicit Types (self : DatasetBase feat) (st : state rng).
Implicit Types (session : option Session).

Lemma next_batch_enter_run self (batch_size : option nat) session st :
  next_batch_enter self batch_size session st
  = if is_none session && negb (num_gpu self =? 1)
    then (Raise (ValueError session_message), st)
    else (Ok (default (self_batch_size self) batch_size), flag_off st).
Proof. unfold next_batch_enter. by destruct (_ && _). Qed.

Lemma iterate_S {A} (n : nat) (body : M rng A) st :
  iterate (S n) body st
  = match body st with
    | (Ok a, st1) =>
        match iterate n body st1 with
        | (Ok l, st2) => (Ok (a :: l), st2)
        | (Raise e, st2) => (Raise e, st2)
        end
    | (Raise e, st1) => (Raise e, st1)
    end.
Proof.
  cbn [iterate]. rewrite bind_run. destruct (body st) as [[a|e] st1]; [|done].
  rewrite bind_run. by destruct (iterate n body st1) as [[l|e] st2].
Qed.

(** What holds of every item that a loop produces under an invariant. *)
Lemma iterate_Forall {A} (I : state rng → Prop) (P : A → Prop) (body : M rng A) :
  (∀ st, I st → I (body st).2) →
  (∀ st a st', I st → body st = (Ok a, st') → P a) →
  ∀ n st outs st', I st → iterate n body st = (Ok outs, st') →
    Forall P outs ∧ I st'.
Proof.
  intros Hinv HP n. induction n as [|n IH]; intros st outs st' HI.
  - cbn. intros [= <- <-]. by split.
  - rewrite iterate_S. destruct (body st) as [[a|e] st1] eqn:Hbody; [|done].
    destruct (iterate n body st1) as [[l|e] st2] eqn:Hrest; [|done].
    intros [= <- <-].
    assert (I st1) as HI1 by (specialize (Hinv st HI); by rewrite Hbody in Hinv).
    destruct (IH st1 l st2 HI1 Hrest) as [Hl HI2].
    split; [|done]. constructor; [exact (HP st a st1 HI Hbody)|done].
Qed.

Lemma next_batch_Forall (I : state rng → Prop)
    (P : list nat * batch feat sparse → Prop) self batch_size session :
  (∀ st, I st → I (flag_off st)) →
  (∀ size st, I st →
     I (next_batch_iter fzero list2sparsetensor self size session st).2) →
  (∀ size st a st', I st →
     next_batch_iter fzero list2sparsetensor self size session st = (Ok a, st') →
     P a) →
  ∀ n st outs st', I st →
    next_batch fzero list2sparsetensor self batch_size session n st
    = (Ok outs, st') →
    Forall P outs ∧ I st'.
Proof.
  intros Hoff Hinv HP [|n] st outs st' HI; [cbn; intros [= <- <-]; by split|].
  unfold next_batch. rewrite bind_run, next_batch_enter_run.
  destruct (_ && _); [done|]. intros Hrun.
  exact (iterate_Forall I P _ (Hinv _) (HP _) _ _ _ _ (Hoff _ HI) Hrun).
Qed.



Lemma next_batch_iter_names self bs session st indices out st' :
  next_batch_iter fzero list2sparsetensor self bs session st
  = (Ok (indices, out), st') →
  ∃ arr, yields list2sparsetensor arr out ∧ Forall (in_range self) indices
         ∧ input_names arr = name_of self <$> indices.
Proof.
  intros (arr & st1 & Hmini & Hsplit)%next_batch_iter_Ok.
  exists arr. split; [by eapply split_batch_yields|].
  destruct (mini_batch_fill fzero self bs st indices arr st1 Hmini)
    as (T & L & Hfill).
  split; [by eapply fill_arrays_in_range|].
  by apply (fill_arrays_names fzero) in Hfill as [? _].
Qed.
End Generator.

(** ** Runs on the concrete corpus *)

Lemma demo_sorted_run :
  next_batch 0%Z triples (demo true 2 1) None (None : option ()) 3 demo_start
  = (Ok demo_sorted_epoch, demo_end).
Proof. reflexivity. Qed.

Lemma demo_random_run :
  next_batch 0%Z triples (demo false 2 1) None (None : option ()) 3 demo_start
  = (Ok demo_random_epoch, demo_end).
Proof. reflexivity. Qed.

Lemma demo_sorted_by_frame_num b g : sorted_by_frame_num (demo true b g).
Proof.
  intros i j Hij Hj. cbn in Hj.
  do 5 (destruct j as [|j]; [do 5 (destruct i as [|i]; [cbn; lia|]); lia|]). lia.
Qed.

Lemma demo_pool_ok s b g : pool_ok (demo s b g) (rest demo_start).
Proof. apply (pool_ok_seq (demo s b g)). Qed.

(** ** Padding, widths and names of the produced batches *)

Section ProducedBatches.
Context {feat : Type} (fzero : feat).
Context {rng : Type} `{!RandomGen rng}.
Context {Session sparse : Type}.
Context (list2sparsetensor : list (list Z) → Z → sparse).

Implicit Types (self : DatasetBase feat) (st : state rng).
Implicit Types (session : option Session).




(** C9, as amended.  In every batch that [next_batch] produces, the name of
    a drawn example is the last component of its input path cut before
    its first dot. *)
Theorem names_cut_at_first_dot self batch_size session n st outs st' :
  next_batch fzero list2sparsetensor self batch_size session n st
  = (Ok outs, st') →
  Forall (λ io, ∃ arr, yields list2sparsetensor arr io.2
                       ∧ named_by_first_dot self io.1 arr) outs.
Proof.
  intros Hrun.
  eapply (next_batch_Forall fzero list2sparsetensor (λ _, True));
    [done|done| |done|exact Hrun].
  intros size st0 [indices out] st1 _ Hiter.
  apply next_batch_iter_names in Hiter as (arr & Hy & Hr & Hnames).
  exists arr. split; [done|]. by apply names_named_by_first_dot.
Qed.
End ProducedBatches.



Lemma names_cut_at_first_dot_witness :
  Forall (λ io, ∃ arr, yields triples arr io.2
                       ∧ named_by_first_dot (demo true 2 1) io.1 arr)
         demo_sorted_epoch.
Proof.
  exact (names_cut_at_first_dot 0%Z triples (demo true 2 1) None None 3
           demo_start demo_sorted_epoch demo_end demo_sorted_run).
Defined.

(** Sorted mode reads the width of the input tensor off the last index
    drawn.  On a dataset that is not sorted the slice assignment of a longer
    example raises, except that NumPy broadcasts a single frame onto an
    empty slice: the batch below has rows of width zero for an utterance of
    one frame.  This is why the two theorems above ask for the loader's
    ordering in sorted mode. *)
Remark sorted_mode_on_unsorted_dataset :
  next_batch 0%Z triples
    (__init__ "dev" "phone" 2 true 1 unsorted_corpus).1 None (None : option ())
    1 (start (seq 0 2) 0)
  = (Ok [([0; 1],
          Whole [[]; []] [(0, 0, 7%Z); (1, 0, 3%Z)] [1; 0] [Some "a"; Some "b"])],
     {| rest := [0; 1]; gen := 1; stdout := []; next_epoch_flag := true |}).
Proof. reflexivity. Qed.

(** The second utterance of the corpus is named [faks0], not
    [faks0.sx223]. *)
Lemma name_is_not_extension_stripped :
  ∃ outs st',
    next_batch 0%Z triples (demo true 2 1) None (None : option ()) 3 demo_start
    = (Ok outs, st')
    ∧ ¬ Forall (λ io, ∃ arr, yields triples arr io.2
                  ∧ named_by_stripped_extension (demo true 2 1) io.1 arr) outs.
Proof.
  exists demo_sorted_epoch, demo_end. split; [exact demo_sorted_run|].
  intros Hall. apply Forall_cons in Hall as [(arr & Hy & Hnamed) _].
  destruct Hy as (_ & _ & _ & Hnames).
  specialize (Hnamed 0 1 "/corpus/train/faks0.sx223.npy" eq_refl eq_refl).
  cbn in Hnames. rewrite <-Hnames in Hnamed. discriminate Hnamed.
Qed.

(** ** The invariant of the remaining pool *)

Section PoolInvariant.
Context {feat : Type} (fzero : feat).
Context {rng : Type} `{!RandomGen rng}.
Context {Session sparse : Type}.
Context (list2sparsetensor : list (list Z) → Z → sparse).

Implicit Types (self : DatasetBase feat) (st : state rng).
Implicit Types (session : option Session).



(** What a turn of the loop draws and what it leaves in the pool. *)
Lemma next_batch_iter_pool_step self size session st indices out st' :
  next_batch_iter fzero list2sparsetensor self size session st
  = (Ok (indices, out), st') →
  pool_step self size (rest st) indices (rest st').
Proof.
  intros Hiter.
  destruct (next_batch_iter_rest fzero list2sparsetensor self size session st)
    as [Hrest _].
  rewrite Hiter in Hrest. cbn in Hrest.
  apply next_batch_iter_Ok in Hiter as (arr & st1 & Hmini & _).
  destruct (mini_batch_spec fzero self size st) as (idx & Hdrawn & _ & Hidx & _).
  rewrite Hmini in Hdrawn, Hidx, Hrest. cbn in *.
  destruct (Hidx _ eq_refl) as (<- & _). cbn in *.
  revert Hdrawn. unfold drawn, pool_step. rewrite Hrest.
  case_decide; tauto.
Qed.

End PoolInvariant.


(** ** A loaded dataset *)



Section Epoch.
Context {feat : Type} (fzero : feat).
Context {rng : Type} `{!RandomGen rng}.
Context {Session sparse : Type}.
Context (list2sparsetensor : list (list Z) → Z → sparse).

Implicit Types (self : DatasetBase feat) (st : state rng).
Implicit Types (session : option Session).

Lemma wf_in_range self (indices : list nat) :
  wf_dataset self → Forall (λ i, i < data_num self) indices →
  Forall (in_range self) indices.
Proof.
  intros [Hi Hl Hp _] Hlt. eapply Forall_impl; [exact Hlt|].
  intros x Hx. unfold in_range. cbn in Hx. lia.
Qed.

(** On a loaded dataset a draw from a non-empty pool succeeds. *)
Lemma mini_batch_total self size st :
  wf_dataset self → pool_ok self (rest st) → rest st ≠ [] → 0 < size →
  ∃ indices st1,
    mini_batch fzero self size st = (Ok (indices, padded fzero self indices), st1)
    ∧ drawn self size st indices st1
    ∧ (is_sorted self = true → size < length (rest st) →
       indices ≡ₚ take size (rest st)).
Proof.
  intros Hwf [Hasc Hlt] Hne Hsize.
  destruct (mini_batch_spec fzero self size st)
    as (indices & Hdrawn & Hblock & _ & Hres).
  exists indices, (mini_batch fzero self size st).2. split_and!; [|done..].
  apply injective_projections; [|done]. cbn.
  apply Hres; [intros Hs; split; [by apply (wf_sorted _ Hwf)|done]|].
  split; [|done]. revert Hdrawn. unfold drawn. case_decide.
  - intros (Hlen & Hsub & _). split.
    + intros ->. cbn in Hlen. lia.
    + apply wf_in_range; [done|]. apply Forall_forall. intros x Hx.
      eapply Forall_forall in Hlt; [done|]. by eapply elem_of_submseteq.
  - intros (Hperm & _). split.
    + by eapply perm_nonempty.
    + apply wf_in_range; [done|]. by rewrite Hperm.
Qed.



End Epoch.

Lemma demo_wf s b g : wf_dataset (demo s b g).
Proof.
  split; [reflexivity..|]. destruct s; [|done].
  intros _. apply demo_sorted_by_frame_num.
Qed.


(** ** Sorted mode: successive blocks of the pool *)

Section SortedBlocks.
Context {feat : Type} (fzero : feat).
Context {rng : Type} `{!RandomGen rng}.
Context {Session sparse : Type}.
Context (list2sparsetensor : list (list Z) → Z → sparse).

Implicit Types (self : DatasetBase feat) (st : state rng).
Implicit Types (session : option Session).



End SortedBlocks.



(** ** Sharding a full batch *)

Section FullBatch.
Context {feat : Type} (fzero : feat).
Context {rng : Type} `{!RandomGen rng}.
Context {Session sparse : Type}.
Context (list2sparsetensor : list (list Z) → Z → sparse).

Implicit Types (self : DatasetBase feat) (st : state rng).
Implicit Types (session : option Session).

Lemma tf_split_even {A} (value : list A) (n : nat) :
  n ≠ 0 → length value `mod` n = 0 →
  ∃ parts, tf_split value n = Ok parts
           ∧ evenly_split n (length value `div` n) parts.
Proof.
  intros Hn Hmod. eexists. split; [by apply tf_split_Ok|].
  assert (length value = n * (length value `div` n)) as Hlen.
  { rewrite (Nat.div_mod_eq (length value) n) at 1. lia. }
  split; [apply chunks_length|by apply chunks_sizes].
Qed.

Lemma shard_even (arr : arrays feat) (n B : nat) :
  n ≠ 0 → B `mod` n = 0 →
  length (inputs arr) = B → length (labels arr) = B →
  length (inputs_seq_len arr) = B → length (input_names arr) = B →
  ∃ ins labs lens names,
    shard list2sparsetensor arr n
    = Ok (Sharded ins ((λ m, list2sparsetensor m padded_value) <$> labs)
            lens names)
    ∧ evenly_split n (B `div` n) ins ∧ evenly_split n (B `div` n) labs
    ∧ evenly_split n (B `div` n) lens ∧ evenly_split n (B `div` n) names.
Proof.
  intros Hn Hmod Hi Hl Hs Hna.
  destruct (tf_split_even (inputs arr) n) as (ins & Ei & ?); [done|by rewrite Hi|].
  destruct (tf_split_even (labels arr) n) as (labs & El & ?); [done|by rewrite Hl|].
  destruct (tf_split_even (inputs_seq_len arr) n) as (lens & Es & ?);
    [done|by rewrite Hs|].
  destruct (tf_split_even (input_names arr) n) as (names & En & ?);
    [done|by rewrite Hna|].
  exists ins, labs, lens, names. rewrite Hi, Hl, Hs, Hna in *.
  split_and!; [|done..]. unfold shard. by rewrite Ei, El, Es, En.
Qed.

(** The four components of a sharded yield have the same number of
    slices. *)
Lemma sharded_consistent self size session st indices ins labels_st lens names st' :
  next_batch_iter fzero list2sparsetensor self size session st
  = (Ok (indices, Sharded ins labels_st lens names), st') →
  length labels_st = length ins ∧ length lens = length ins
  ∧ length names = length ins.
Proof.
  intros (arr & st1 & _ & Hsplit)%next_batch_iter_Ok.
  destruct (decide (1 < num_gpu self)) as [Hg|Hg];
    [|by rewrite split_batch_whole in Hsplit].
  destruct session as [s|]; [|by apply split_batch_no_session in Hsplit].
  rewrite split_batch_sharded in Hsplit by done. injection Hsplit as Hshard _.
  apply shard_Ok in Hshard
    as (ins' & labs & lens' & names' & Hi & Hl & Hs & Hn & [= -> -> -> ->]).
  apply tf_split_shape in Hi as (Hi & _), Hl as (Hl & _), Hs as (Hs & _),
    Hn as (Hn & _).
  rewrite length_fmap. lia.
Qed.

(** C8.  In sharded mode with [g] replicas, a turn of the loop that finds
    more than [size] indices in the pool, [size] being a multiple of [g],
    yields [g] slices of [size / g] examples for each of the inputs, the
    labels, the lengths and the names (the labels being converted slice by
    slice); and whenever a sharded tuple is yielded its four components
    have the same number of slices. *)
Theorem full_batch_is_split_evenly self size (s : Session) st :
  wf_dataset self → pool_ok self (rest st) → next_epoch_flag st = false →
  1 < num_gpu self → 0 < size → size < length (rest st) →
  size `mod` num_gpu self = 0 →
  (∃ indices ins labs lens names st',
     next_batch_iter fzero list2sparsetensor self size (Some s) st
     = (Ok (indices,
            Sharded ins ((λ m, list2sparsetensor m padded_value) <$> labs)
              lens names), st')
     ∧ length indices = size
     ∧ evenly_split (num_gpu self) (size `div` num_gpu self) ins
     ∧ evenly_split (num_gpu self) (size `div` num_gpu self) labs
     ∧ evenly_split (num_gpu self) (size `div` num_gpu self) lens
     ∧ evenly_split (num_gpu self) (size `div` num_gpu self) names
     ∧ next_epoch_flag st' = false)
  ∧ (∀ size' session indices ins labels_st lens names st',
       next_batch_iter fzero list2sparsetensor self size' session st
       = (Ok (indices, Sharded ins labels_st lens names), st') →
       length labels_st = length ins ∧ length lens = length ins
       ∧ length names = length ins).
Proof.
  intros Hwf Hok Hflag Hg Hsize Hfull Hmod.
  split; [|intros *; apply sharded_consistent].
  assert (rest st ≠ []) as Hne by (destruct (rest st); [cbn in Hfull; lia|done]).
  destruct (mini_batch_total fzero self size st Hwf Hok Hne Hsize)
    as (indices & st1 & Hmini & Hdrawn & _).
  revert Hdrawn. unfold drawn. rewrite decide_True by done.
  intros (Hlen & _ & _ & _ & Hflag1).
  destruct (padded_length fzero self indices) as (Hi & Hl & Hs & Hn).
  rewrite Hlen in Hi, Hl, Hs, Hn.
  destruct (shard_even (padded fzero self indices) (num_gpu self) size)
    as (ins & labs & lens & names & Hshard & ? & ? & ? & ?); [lia|done..|].
  exists indices, ins, labs, lens, names, (flag_off st1).
  split_and!; try done.
  rewrite next_batch_iter_run, Hmini. cbn.
  rewrite split_batch_sharded by done. unfold divide_num_of.
  rewrite Hflag1, Hflag. by rewrite Hshard.
Qed.
End FullBatch.

Lemma full_batch_is_split_evenly_witness :
  (∃ indices ins labs lens names st',
     next_batch_iter 0%Z triples (demo true 1 2) 2 (Some ()) demo_start
     = (Ok (indices,
            Sharded ins ((λ m, triples m padded_value) <$> labs) lens names), st')
     ∧ length indices = 2
     ∧ evenly_split 2 1 ins ∧ evenly_split 2 1 labs
     ∧ evenly_split 2 1 lens ∧ evenly_split 2 1 names
     ∧ next_epoch_flag st' = false)
  ∧ (∀ size' (session : option ()) indices ins labels_st lens names st',
       next_batch_iter 0%Z triples (demo true 1 2) size' session demo_start
       = (Ok (indices, Sharded ins labels_st lens names), st') →
       length labels_st = length ins ∧ length lens = length ins
       ∧ length names = length ins).
Proof.
  apply (full_batch_is_split_evenly 0%Z triples (demo true 1 2) 2 () demo_start).
  - apply demo_wf.
  - apply demo_pool_ok.
  - reflexivity.
  - cbn. lia.
  - lia.
  - cbn. lia.
  - reflexivity.
Defined.

(** ** The default batch size *)

Section DefaultBatchSize.
Context {feat : Type} (fzero : feat).
Context {rng : Type} `{!RandomGen rng}.
Context {Session sparse : Type}.
Context (list2sparsetensor : list (list Z) → Z → sparse).

Implicit Types (self : DatasetBase feat) (st : state rng).
Implicit Types (session : option Session).

Lemma fill_arrays_length self indices T L arr :
  fill_arrays fzero self indices T L = Ok arr →
  length (inputs arr) = length indices ∧ length (labels arr) = length indices
  ∧ length (inputs_seq_len arr) = length indices
  ∧ length (input_names arr) = length indices.
Proof.
  rewrite fill_arrays_rows.
  intros (rows & Hrows%map_result_Ok & [= <-])%result_bind_Ok. cbn.
  apply Forall2_length in Hrows. by rewrite !length_fmap.
Qed.

(** C10.  The constructor stores [batch_size * num_gpu] as the batch size
    of the object; a generator created without a size of its own works
    with this number; and a turn of its loop that finds more indices than
    that in the pool yields a batch of exactly [batch_size * num_gpu]
    examples. *)
Theorem default_batch_size_is_multiplied
    data_type label_type (b : nat) sorted (g : nat) (c : corpus feat) session st :
  batch_size (__init__ data_type label_type b sorted g c).1 = b * g
  ∧ (∀ size st1,
       next_batch_enter (__init__ data_type label_type b sorted g c).1 None
         session st = (Ok size, st1) →
       size = b * g)
  ∧ (∀ indices out st',
       b * g < length (rest st) →
       next_batch_iter fzero list2sparsetensor
         (__init__ data_type label_type b sorted g c).1 (b * g) session st
       = (Ok (indices, out), st') →
       length indices = b * g
       ∧ ∃ arr, yields list2sparsetensor arr out
                ∧ length (inputs arr) = b * g ∧ length (labels arr) = b * g
                ∧ length (inputs_seq_len arr) = b * g
                ∧ length (input_names arr) = b * g).
Proof.
  split_and!; [done| |].
  - intros size st1. rewrite next_batch_enter_run.
    destruct (_ && _); [done|]. by intros [= <- _].
  - intros indices out st' Hfull Hiter.
    pose proof (next_batch_iter_pool_step _ _ _ _ _ _ _ _ _ Hiter) as Hstep.
    revert Hstep. unfold pool_step. rewrite decide_True by done.
    intros (Hlen & _). split; [done|].
    apply next_batch_iter_Ok in Hiter as (arr & st1 & Hmini & Hsplit).
    exists arr. split; [by eapply split_batch_yields|].
    apply mini_batch_fill in Hmini as (T & L & Hfill).
    apply fill_arrays_length in Hfill. by rewrite Hlen in Hfill.
Qed.
End DefaultBatchSize.

(** Two replicas and a batch size of one per replica: the first batch of the
    corpus holds two examples. *)
Lemma demo_default_batch :
  (next_batch 0%Z triples (demo true 1 2) None (Some ()) 1 demo_start).1
  = Ok [([1; 0],
         Sharded [[replicate 3 [2; 2]]; [replicate 3 [1; 1]]]%Z
           [[(0, 0, 3%Z); (0, 1, 9%Z)]; [(0, 0, 7%Z)]] [[3]; [3]]
           [[Some "faks0"]; [Some "fadg0_si1279"]])].
Proof. reflexivity. Qed.

Lemma default_batch_size_is_multiplied_witness :
  batch_size (demo true 1 2) = 1 * 2
  ∧ (next_batch_enter (demo true 1 2) None (Some ()) demo_start).1 = Ok (1 * 2)
  ∧ length [1; 0] = 1 * 2.
Proof.
  pose proof (default_batch_size_is_multiplied 0%Z triples "train" "phone" 1
                true 2 demo_corpus (Some ()) demo_start) as (Hinit & Henter & Hiter).
  split_and!.
  - exact Hinit.
  - by rewrite (Henter 2 (flag_off demo_start) eq_refl).
  - refine (proj1 (Hiter [1; 0] _ _ _ eq_refl)). cbn. lia.
Defined.

(** ** The session check *)

Lemma no_session_error_Ok {A} (a : A) : no_session_error (Ok a).
Proof. by intros e [=]. Qed.

Lemma no_session_error_Raise {A B} (e : exn) :
  no_session_error (Raise e : result A) → no_session_error (Raise e : result B).
Proof. intros H e' [= <-]. by apply H. Qed.

Lemma no_session_error_bind {A B} (m : result A) (f : A → result B) :
  no_session_error m → (∀ a, no_session_error (f a)) →
  no_session_error (m ≫= f).
Proof.
  intros Hm Hf e. destruct m as [a|e']; cbn; [exact (Hf a e)|].
  intros [= <-]. by apply Hm.
Qed.

Lemma no_session_error_getitem {A} (l : list A) i : no_session_error (getitem l i).
Proof. unfold getitem. destruct (l !! i); by intros e [= <-]. Qed.

Lemma no_session_error_last_item {A} (l : list A) : no_session_error (last_item l).
Proof. unfold last_item. destruct (last l); by intros e [= <-]. Qed.

Lemma no_session_error_py_max l : no_session_error (py_max l).
Proof. destruct l; by intros e [= <-]. Qed.

Lemma no_session_error_assign_prefix {A} (row data : list A) :
  no_session_error (assign_prefix row data).
Proof. unfold assign_prefix. repeat case_decide; by intros e [= <-]. Qed.

Lemma no_session_error_setitem {A} (l : list A) i v : no_session_error (setitem l i v).
Proof. unfold setitem. case_decide; by intros e [= <-]. Qed.

Lemma no_session_error_map_result {A B} (f : A → result B) (l : list A) :
  (∀ a, no_session_error (f a)) → no_session_error (map_result f l).
Proof.
  intros Hf. induction l as [|a l IH]; cbn; [apply no_session_error_Ok|].
  apply no_session_error_bind; [done|]. intros b.
  apply no_session_error_bind; [done|]. intros bs. apply no_session_error_Ok.
Qed.

Lemma no_session_error_for_each {A S} (body : S → A → result S) (l : list A) s :
  (∀ s a, no_session_error (body s a)) → no_session_error (for_each body l s).
Proof.
  intros Hb. revert s. induction l as [|a l IH]; intros s; cbn;
    [apply no_session_error_Ok|].
  by apply no_session_error_bind.
Qed.

Create HintDb session.

#[global] Hint Resolve no_session_error_Ok no_session_error_getitem
  no_session_error_last_item no_session_error_py_max
  no_session_error_assign_prefix no_session_error_setitem : session.

Ltac no_session_error_steps :=
  repeat (first [ apply no_session_error_bind; [|intros ?]
                | solve [auto with session] ]).

Section SessionCheck.
Context {feat : Type} (fzero : feat).
Context {rng : Type} `{!RandomGen rng}.
Context {Session sparse : Type}.
Context (list2sparsetensor : list (list Z) → Z → sparse).

Implicit Types (self : DatasetBase feat) (st : state rng).
Implicit Types (session : option Session).

Lemma no_session_error_fill_arrays self indices T L :
  no_session_error (fill_arrays fzero self indices T L).
Proof.
  unfold fill_arrays. apply no_session_error_for_each.
  intros arr [i_batch x]. unfold set_example, update_row.
  no_session_error_steps.
Qed.

Lemma no_session_error_take_indices {A} (l : list A) indices :
  no_session_error (take_indices l indices).
Proof. apply no_session_error_map_result. auto with session. Qed.

Lemma no_session_error_mini_batch self size st :
  no_session_error (mini_batch fzero self size st).1.
Proof.
  unfold mini_batch. destruct (is_sorted self).
  - pose proof (draw_sorted_run self size st) as Hdraw.
    destruct (decide (size < length (rest st)));
      apply (sorted_branch_run fzero) in Hdraw as [-> _];
      unfold sorted_collate;
      pose proof @no_session_error_take_indices;
      pose proof no_session_error_fill_arrays;
      no_session_error_steps.
  - pose proof (draw_random_run self size st) as Hdraw.
    destruct (decide (size < length (rest st)));
      apply (random_branch_run fzero) in Hdraw as [-> _];
      unfold random_collate;
      pose proof @no_session_error_take_indices;
      pose proof no_session_error_fill_arrays;
      no_session_error_steps.
Qed.

Lemma no_session_error_iter self size session st :
  ¬ 1 < num_gpu self →
  no_session_error
    (next_batch_iter fzero list2sparsetensor self size session st).1.
Proof.
  intros Hg. rewrite next_batch_iter_run.
  pose proof (no_session_error_mini_batch self size st) as Hmini.
  destruct (mini_batch fzero self size st) as [[d|e] st1];
    [|exact (no_session_error_Raise e Hmini)].
  rewrite split_batch_whole by done. apply no_session_error_Ok.
Qed.

Lemma no_session_error_iterate self size session n st :
  ¬ 1 < num_gpu self →
  no_session_error
    (iterate n (next_batch_iter fzero list2sparsetensor self size session) st).1.
Proof.
  intros Hg. revert st. induction n as [|n IH]; intros st;
    [apply no_session_error_Ok|].
  rewrite iterate_S.
  pose proof (no_session_error_iter self size session st Hg) as Hiter.
  destruct (next_batch_iter _ _ _ _ _ st) as [[a|e] st1];
    [|exact (no_session_error_Raise e Hiter)].
  specialize (IH st1).
  destruct (iterate n _ st1) as [[l|e] st2];
    [apply no_session_error_Ok|exact IH].
Qed.

(** C5.  With more than one replica and no session, asking for the first
    batch raises [ValueError('Set session when using multiple GPUs.')] and
    leaves the pool, the generator of random numbers and the output as they
    were: no batch was computed.  With one replica the check passes with or
    without a session, and no later step raises this error. *)
Theorem session_required_for_sharding self batch_size n st :
  (1 < num_gpu self →
   next_batch fzero list2sparsetensor self batch_size (None : option Session)
     (S n) st
   = (Raise (ValueError session_message), st))
  ∧ (num_gpu self = 1 →
     ∀ session,
       next_batch_enter self batch_size session st
       = (Ok (default (self_batch_size self) batch_size), flag_off st)
       ∧ ∀ m, no_session_error
                (next_batch fzero list2sparsetensor self batch_size session
                   m st).1).
Proof.
  split.
  - intros Hg. unfold next_batch. rewrite bind_run, next_batch_enter_run.
    cbn [is_none andb]. destruct (num_gpu self =? 1) eqn:E; [|done].
    apply Nat.eqb_eq in E. lia.
  - intros Hg session.
    assert (next_batch_enter self batch_size session st
            = (Ok (default (self_batch_size self) batch_size), flag_off st))
      as Henter.
    { rewrite next_batch_enter_run, Hg. cbn [Nat.eqb negb].
      by rewrite andb_false_r. }
    split; [done|]. intros [|m]; [apply no_session_error_Ok|].
    unfold next_batch. rewrite bind_run, Henter.
    apply no_session_error_iterate. lia.
Qed.
End SessionCheck.

Lemma session_required_for_sharding_witness :
  next_batch 0%Z triples (demo true 1 2) None (None : option ()) 1 demo_start
  = (Raise (ValueError session_message), demo_start)
  ∧ next_batch_enter (demo true 2 1) None (None : option ()) demo_start
    = (Ok 2, flag_off demo_start)
  ∧ no_session_error
      (next_batch 0%Z triples (demo true 2 1) None (None : option ()) 3
         demo_start).1.
Proof.
  pose proof (session_required_for_sharding (Session:=()) 0%Z triples
                (demo true 1 2) None 0 demo_start) as [Hraise _].
  pose proof (session_required_for_sharding (Session:=()) 0%Z triples
                (demo true 2 1) None 0 demo_start) as [_ Hpass].
  split; [apply Hraise; cbn; lia|].
  destruct (Hpass eq_refl None) as [Henter Hlater].
  split; [exact Henter|exact (Hlater 3)].
Defined.

(** ** The number of shards of the batch that ends an epoch *)

(** The search of lines 172-175 finds the largest divisor of [n] that is at
    most [g]. *)
Lemma find_divisor_spec (n g d : nat) :
  0 < g →
  1 ≤ find_divisor n g d ≤ g ∧ n `mod` find_divisor n g d = 0
  ∧ ∀ i, find_divisor n g d < i ≤ g → n `mod` i ≠ 0.
Proof.
  induction g as [|g IH]; [lia|]. intros _. cbn [find_divisor]. case_decide as Hd.
  - split; [lia|]. split; [done|]. intros i Hi. lia.
  - destruct g as [|g]; [by rewrite Nat.mod_1_r in Hd|].
    destruct IH as (Hle & Hmod & Hmax); [lia|].
    split; [lia|]. split; [done|]. intros i Hi.
    destruct (decide (i = S (S g))) as [->|]; [done|]. apply Hmax. lia.
Qed.

Section ShortBatch.
Context {feat : Type} (fzero : feat).
Context {rng : Type} `{!RandomGen rng}.
Context {Session sparse : Type}.
Context (list2sparsetensor : list (list Z) → Z → sparse).

Implicit Types (self : DatasetBase feat) (st : state rng).

(** In sharded mode the turn that ends an epoch counts the shards from
    the pool as it is after the reset: the whole dataset, not the batch. *)
Lemma rollover_split_count self size (s : Session) st indices arr st1 :
  1 < num_gpu self → length (rest st) ≤ size →
  mini_batch fzero self size st = (Ok (indices, arr), st1) →
  length indices = length (rest st)
  ∧ next_batch_iter fzero list2sparsetensor self size (Some s) st
    = (match shard list2sparsetensor arr
               (find_divisor (data_num self) (num_gpu self) (num_gpu self)) with
       | Ok out => Ok (indices, out)
       | Raise e => Raise e
       end, flag_off st1).
Proof.
  intros Hg Hshort Hmini.
  destruct (mini_batch_spec fzero self size st) as (idx & Hdrawn & _ & Hidx & _).
  rewrite Hmini in Hdrawn, Hidx. destruct (Hidx _ eq_refl) as (<- & _).
  revert Hdrawn. unfold drawn. rewrite decide_False by lia.
  cbn. intros (Hperm & Hrest & _ & Hflag).
  split; [by rewrite Hperm|].
  rewrite next_batch_iter_run, Hmini. cbn.
  rewrite split_batch_sharded by done. unfold divide_num_of.
  rewrite Hflag, Hrest, length_seq.
  by destruct (shard _ _ _).
Qed.
End ShortBatch.

(** C4, on the code as it is.  With six utterances, four replicas and one
    example per replica the first batch takes four utterances and is cut in
    four.  The second batch holds the two that are left: two shards of one
    example are due, but the count is taken from the six indices of the pool
    after its reset, which gives three, and [tf.split] refuses to cut two
    rows in three. *)
Theorem short_batch_split_follows_dataset_size :
  (∃ out st1,
     next_batch 0%Z triples demo6 None (Some ()) 1 demo6_start = (Ok [out], st1)
     ∧ rest st1 = [4; 5] ∧ next_epoch_flag st1 = false
     ∧ (mini_batch 0%Z demo6 4 st1).1
       = Ok ([4; 5],
             Arrays [replicate 5 [5; 5]; replicate 5 [6; 6]]%Z
               [[5; 6; 7]; [1; -1; -1]]%Z [5; 5] [Some "u4"; Some "u5"]))
  ∧ largest_divisor_le 2 4 = 2
  ∧ find_divisor (data_num demo6) 4 4 = 3
  ∧ (next_batch 0%Z triples demo6 None (Some ()) 2 demo6_start).1
    = Raise (ValueError
               "Dimension size must be evenly divisible by the number of splits").
Proof.
  split_and!; [|reflexivity..].
  eexists _, _. split_and!; reflexivity.
Qed.

(** ** Lengths, sizes and what is printed *)

Section MoreOfBatches.
Context {feat : Type} (fzero : feat).
Context {rng : Type} `{!RandomGen rng}.
Context {Session sparse : Type}.
Context (list2sparsetensor : list (list Z) → Z → sparse).

Implicit Types (self : DatasetBase feat) (st : state rng).
Implicit Types (session : option Session).

Lemma fill_arrays_frame_counts self indices T L arr :
  fill_arrays fzero self indices T L = Ok arr →
  lengths_are_frame_counts self indices arr.
Proof.
  intros Hfill.
  pose proof (fill_arrays_in_range _ _ _ _ _ _ Hfill) as Hr.
  apply (fill_arrays_names fzero) in Hfill as [_ Hlen].
  split; [by rewrite Hlen, length_fmap|].
  intros i x Hx. exists (frames self x). split.
  - eapply Forall_forall in Hr; [|by eapply list_elem_of_lookup_2].
    by apply in_range_lookup in Hr as (? & _).
  - by rewrite Hlen, list_lookup_fmap, Hx.
Qed.

(** X1.  In every batch that [next_batch] produces, entry [i] of
    [inputs_seq_len] is the number of frames of the [i]-th drawn example, in
    both modes and whatever the order of the dataset. *)
Theorem seq_len_is_frame_count self batch_size session n st outs st' :
  next_batch fzero list2sparsetensor self batch_size session n st
  = (Ok outs, st') →
  Forall (λ io, ∃ arr, yields list2sparsetensor arr io.2
                       ∧ lengths_are_frame_counts self io.1 arr) outs.
Proof.
  intros Hrun.
  eapply (next_batch_Forall fzero list2sparsetensor (λ _, True));
    [done|done| |done|exact Hrun].
  intros size st0 [indices out] st1 _ (arr & st2 & Hmini & Hsplit)%next_batch_iter_Ok.
  exists arr. split; [by eapply split_batch_yields|].
  apply mini_batch_fill in Hmini as (T & L & Hfill).
  by eapply fill_arrays_frame_counts.
Qed.

(** X2.  A turn of the loop that yields has drawn [batch_size] examples, or
    the whole pool if that holds no more: the batch is never empty and each
    of the four arrays has one entry per drawn example. *)
Theorem batch_holds_min_of_size_and_pool self size session st indices out st' :
  next_batch_iter fzero list2sparsetensor self size session st
  = (Ok (indices, out), st') →
  indices ≠ []
  ∧ length indices = size `min` length (rest st)
  ∧ ∃ arr, yields list2sparsetensor arr out
           ∧ holds_examples (length indices) arr.
Proof.
  intros Hiter.
  pose proof (next_batch_iter_pool_step _ _ _ _ _ _ _ _ _ Hiter) as Hstep.
  apply next_batch_iter_Ok in Hiter as (arr & st1 & Hmini & Hsplit).
  destruct (mini_batch_spec fzero self size st) as (idx & _ & _ & Hidx & _).
  rewrite Hmini in Hidx. destruct (Hidx _ eq_refl) as (<- & Hne & _). cbn in *.
  split_and!; [done| |].
  - revert Hstep. unfold pool_step. case_decide.
    + intros (-> & _). lia.
    + intros (-> & _). lia.
  - exists arr. split; [by eapply split_batch_yields|].
    apply mini_batch_fill in Hmini as (T & L & Hfill).
    by apply fill_arrays_length in Hfill.
Qed.

(** X4.  A turn of the loop prints [---Next epoch---] when it ends an epoch
    of a dataset whose [data_type] is [train], and nothing otherwise,
    whether it yields or raises. *)
Theorem epoch_notice_is_printed self size session st :
  stdout (next_batch_iter fzero list2sparsetensor self size session st).2
  = stdout st ++ epoch_notice self size (rest st).
Proof.
  destruct (next_batch_iter_rest fzero list2sparsetensor self size session st)
    as [_ ->].
  destruct (mini_batch_spec fzero self size st) as (idx & Hdrawn & _).
  revert Hdrawn. unfold drawn, epoch_notice. case_decide.
  - intros (_ & _ & _ & -> & _). by rewrite app_nil_r.
  - by intros (_ & _ & -> & _).
Qed.
End MoreOfBatches.

(** ** The generator never ends *)

Section Endless.
Context {feat : Type} (fzero : feat).
Context {rng : Type} `{!RandomGen rng}.
Context {Session sparse : Type}.
Context (list2sparsetensor : list (list Z) → Z → sparse).

Implicit Types (self : DatasetBase feat) (st : state rng).
Implicit Types (session : option Session).


Lemma iterate_0 {A} (body : M rng A) st : iterate 0 body st = (Ok [], st).
Proof. reflexivity. Qed.


Lemma iterate_ext {A} (n : nat) (body1 body2 : M rng A) :
  (∀ st, body1 st = body2 st) → ∀ st, iterate n body1 st = iterate n body2 st.
Proof.
  intros Hext. induction n as [|n IH]; intros st; [done|].
  rewrite !iterate_S, Hext. destruct (body2 st) as [[a|e] st1]; [|done].
  by rewrite IH.
Qed.


Lemma length_difference_update (pool indices : list nat) :
  NoDup pool → indices ⊆+ pool →
  length (set_difference_update pool indices) = length pool - length indices.
Proof.
  intros Hnd Hsub. pose proof (list_difference_perm _ _ Hnd Hsub) as Hperm.
  apply Permutation_length in Hperm. rewrite length_app in Hperm.
  unfold set_difference_update. lia.
Qed.





Lemma next_batch_iter_session self size (s : Session) st :
  ¬ 1 < num_gpu self →
  next_batch_iter fzero list2sparsetensor self size (Some s) st
  = next_batch_iter fzero list2sparsetensor self size (None : option Session) st.
Proof.
  intros Hg. rewrite !next_batch_iter_run.
  destruct (mini_batch fzero self size st) as [[d|e] st1]; [|done].
  by rewrite !split_batch_whole.
Qed.

Lemma next_batch_iter_whole self size session st indices out st' :
  ¬ 1 < num_gpu self →
  next_batch_iter fzero list2sparsetensor self size session st
  = (Ok (indices, out), st') →
  is_whole out.
Proof.
  intros Hg (arr & st1 & _ & Hsplit)%next_batch_iter_Ok.
  rewrite split_batch_whole in Hsplit by done. by injection Hsplit as <- _.
Qed.

(** X5.  With one replica the session is not used: the generator yields
    the same batches, and leaves the same state, with a session as
    without, and every batch is the plain tuple of four arrays. *)
Theorem single_replica_ignores_session self batch_size (s : Session) n st :
  num_gpu self = 1 →
  next_batch fzero list2sparsetensor self batch_size (Some s) n st
  = next_batch fzero list2sparsetensor self batch_size (None : option Session)
      n st
  ∧ ∀ session outs st',
      next_batch fzero list2sparsetensor self batch_size session n st
      = (Ok outs, st') →
      Forall (λ io, is_whole io.2) outs.
Proof.
  intros Hg. split.
  - destruct n as [|n]; [done|]. unfold next_batch.
    rewrite !bind_run, !next_batch_enter_run, Hg. cbn [Nat.eqb negb is_none andb].
    apply iterate_ext. intros st0. apply next_batch_iter_session. lia.
  - intros session outs st' Hrun.
    eapply (next_batch_Forall fzero list2sparsetensor (λ _, True));
      [done|done| |done|exact Hrun].
    intros size st0 [indices out] st1 _ Hiter.
    apply (next_batch_iter_whole self size session st0 indices out st1); [lia|done].
Qed.
End Endless.

(** ** Sharding: the batch that ends an epoch, uneven batches, slices *)

Lemma mod_0_multiple (n b : nat) : n `mod` b = 0 → n = n `div` b * b.
Proof. intros Hmod. pose proof (Nat.div_mod_eq n b). lia. Qed.

Lemma multiple_mod_0 (q b : nat) : (q * b) `mod` b = 0.
Proof. apply Nat.Div0.mod_mul. Qed.

Lemma tf_split_uneven {A} (value : list A) (n : nat) :
  n ≠ 0 → length value `mod` n ≠ 0 → tf_split value n = Raise split_error.
Proof.
  intros Hn Hmod. unfold tf_split. by rewrite decide_False, decide_False.
Qed.


Section MoreOfSharding.
Context {feat : Type} (fzero : feat).
Context {rng : Type} `{!RandomGen rng}.
Context {Session sparse : Type}.
Context (list2sparsetensor : list (list Z) → Z → sparse).

Implicit Types (self : DatasetBase feat) (st : state rng).
Implicit Types (session : option Session).

Lemma shard_uneven (arr : arrays feat) (n : nat) :
  n ≠ 0 → length (inputs arr) `mod` n ≠ 0 →
  shard list2sparsetensor arr n = Raise split_error.
Proof.
  intros Hn Hmod. unfold shard. by rewrite (tf_split_uneven (inputs arr) n).
Qed.

Lemma shard_sharded_in (arr : arrays feat) (n B : nat) :
  n ≠ 0 → B `mod` n = 0 → holds_examples B arr →
  ∃ out, shard list2sparsetensor arr n = Ok out
         ∧ sharded_in n (B `div` n) out.
Proof.
  intros Hn Hmod (Hi & Hl & Hs & Hna).
  destruct (shard_even list2sparsetensor arr n B Hn Hmod Hi Hl Hs Hna)
    as (ins & labs & lens & names & Hshard & ? & [Hlabs _] & ? & ?).
  eexists. split; [exact Hshard|]. cbn. by rewrite length_fmap.
Qed.

Lemma padded_holds_examples self indices :
  holds_examples (length indices) (padded fzero self indices).
Proof. apply padded_length. Qed.

(** X6.  In sharded mode the turn that ends an epoch cuts its batch in [d]
    slices, [d] being the largest divisor of [data_num] that is at most
    [num_gpu]: the pool has been reset when its size is read.  The batch is
    yielded in [d] equal slices when its length is a multiple of [d], and
    otherwise [tf.split] raises [ValueError], the pool being reset
    already. *)
Theorem rollover_shards_by_dataset_size self size (s : Session) st :
  wf_dataset self → pool_ok self (rest st) → rest st ≠ [] → 0 < size →
  1 < num_gpu self → length (rest st) ≤ size →
  let d := find_divisor (data_num self) (num_gpu self) (num_gpu self) in
  (1 ≤ d ≤ num_gpu self ∧ data_num self `mod` d = 0
   ∧ ∀ i, d < i ≤ num_gpu self → data_num self `mod` i ≠ 0)
  ∧ (length (rest st) `mod` d = 0 →
     ∃ indices out st',
       next_batch_iter fzero list2sparsetensor self size (Some s) st
       = (Ok (indices, out), st')
       ∧ indices ≡ₚ rest st
       ∧ sharded_in d (length (rest st) `div` d) out
       ∧ rest st' = seq 0 (data_num self))
  ∧ (length (rest st) `mod` d ≠ 0 →
     ∃ msg st',
       next_batch_iter fzero list2sparsetensor self size (Some s) st
       = (Raise (ValueError msg), st')
       ∧ rest st' = seq 0 (data_num self)).
Proof.
  intros Hwf Hok Hne Hsize Hg Hshort d.
  pose proof (find_divisor_spec (data_num self) (num_gpu self) (num_gpu self)
                ltac:(lia)) as Hd. fold d in Hd.
  split; [exact Hd|].
  destruct (mini_batch_total fzero self size st Hwf Hok Hne Hsize)
    as (indices & st1 & Hmini & Hdrawn & _).
  revert Hdrawn. unfold drawn. rewrite decide_False by lia.
  intros (Hperm & Hrest & _).
  destruct (rollover_split_count fzero list2sparsetensor self size s st
              indices _ st1 Hg Hshort Hmini) as [Hlen Hiter]. fold d in Hiter.
  split.
  - intros Hmod.
    destruct (shard_sharded_in (padded fzero self indices) d (length (rest st)))
      as (out & Hshard & Hout); [lia|done| |].
    { rewrite <-Hlen. apply padded_holds_examples. }
    exists indices, out, (flag_off st1). rewrite Hiter, Hshard. done.
  - intros Hmod. eexists _, (flag_off st1). split; [|done].
    rewrite Hiter, shard_uneven; [reflexivity|lia|].
    destruct (padded_length fzero self indices) as (-> & _). by rewrite Hlen.
Qed.

(** X7.  In sharded mode a full batch whose size is not a multiple of
    [num_gpu] is not yielded: [tf.split] raises [ValueError], after the
    drawn indices have left the pool. *)
Theorem uneven_full_batch_raises self size (s : Session) st :
  wf_dataset self → pool_ok self (rest st) → next_epoch_flag st = false →
  1 < num_gpu self → 0 < size → size < length (rest st) →
  size `mod` num_gpu self ≠ 0 →
  ∃ msg st',
    next_batch_iter fzero list2sparsetensor self size (Some s) st
    = (Raise (ValueError msg), st')
    ∧ length (rest st') = length (rest st) - size.
Proof.
  intros Hwf Hok Hflag Hg Hsize Hfull Hmod.
  assert (rest st ≠ []) as Hne by (destruct (rest st); [cbn in Hfull; lia|done]).
  destruct (mini_batch_total fzero self size st Hwf Hok Hne Hsize)
    as (indices & st1 & Hmini & Hdrawn & _).
  revert Hdrawn. unfold drawn. rewrite decide_True by done.
  intros (Hlen & Hsub & Hrest & _ & Hflag1).
  eexists _, (flag_off st1). split.
  - rewrite next_batch_iter_run, Hmini. cbn.
    rewrite split_batch_sharded by done. unfold divide_num_of.
    rewrite Hflag1, Hflag. rewrite shard_uneven; [reflexivity|lia|].
    destruct (padded_length fzero self indices) as (-> & _). by rewrite Hlen.
  - cbn. rewrite Hrest, length_difference_update, Hlen; [done| |done].
    apply ascending_NoDup, Hok.
Qed.

Lemma divide_num_of_bounds self st :
  0 < num_gpu self → 1 ≤ divide_num_of self st ≤ num_gpu self.
Proof.
  intros Hg. unfold divide_num_of. destruct (next_epoch_flag st); [|lia].
  by apply find_divisor_spec.
Qed.

(** X11.  Every sharded batch that a turn of the loop yields has between one
    and [num_gpu] slices, as many in each of its four components and all of
    the same size; the slices follow the order of the batch: joined in
    order, the lengths and the names are those of the drawn examples. *)
Theorem shards_are_equal_slices_in_order
    self size session st indices ins labels_st lens names st' :
  next_batch_iter fzero list2sparsetensor self size session st
  = (Ok (indices, Sharded ins labels_st lens names), st') →
  1 ≤ length ins ≤ num_gpu self
  ∧ length ins * (length indices `div` length ins) = length indices
  ∧ sharded_in (length ins) (length indices `div` length ins)
      (Sharded ins labels_st lens names)
  ∧ concat lens = (λ x, length (frames self x)) <$> indices
  ∧ concat names = name_of self <$> indices.
Proof.
  intros (arr & st1 & Hmini & Hsplit)%next_batch_iter_Ok.
  destruct (decide (1 < num_gpu self)) as [Hg|Hg];
    [|by rewrite split_batch_whole in Hsplit].
  destruct session as [s|]; [|by apply split_batch_no_session in Hsplit].
  rewrite split_batch_sharded in Hsplit by done. injection Hsplit as Hshard _.
  pose proof (divide_num_of_bounds self st1 ltac:(lia)) as Hd.
  apply mini_batch_fill in Hmini as (T & L & Hfill).
  pose proof (fill_arrays_length _ _ _ _ _ _ Hfill) as (Hli & Hll & Hls & Hln).
  apply (fill_arrays_names fzero) in Hfill as [Hnames Hlens].
  apply shard_Ok in Hshard
    as (ins' & labs & lens' & names' & Hi & Hl & Hs & Hn & [= -> -> -> ->]).
  pose proof Hi as (_ & Hmod & _)%tf_split_Ok.
  apply tf_split_shape in Hi as (Hi & Hsi & _), Hl as (Hl & _ & _),
    Hs as (Hs & Hss & Hcs), Hn as (Hn & Hsn & Hcn).
  rewrite Hli in Hsi, Hmod. rewrite Hls in Hss. rewrite Hln in Hsn.
  rewrite Hi. split_and!; [lia..| | |by rewrite Hcs|by rewrite Hcn].
  - pose proof (mod_0_multiple _ _ Hmod). lia.
  - cbn. rewrite length_fmap. by repeat split.
Qed.


End MoreOfSharding.

(** ** Empty draws and datasets out of order *)

Lemma map_result_Raise {A B} (f : A → result B) (l : list A) (e : exn) :
  Forall (λ a, (∃ b, f a = Ok b) ∨ f a = Raise e) l →
  Exists (λ a, f a = Raise e) l →
  map_result f l = Raise e.
Proof.
  intros Hall Hex. induction Hall as [|a l Ha Hall IH]; [by inversion Hex|].
  cbn [map_result]. destruct Ha as [[b Hb]|Ha]; [|by rewrite Ha].
  rewrite Hb. cbn [mbind result_bind].
  rewrite IH; [done|]. inversion Hex as [?? Hf|]; [congruence|done].
Qed.



Section EdgeCases.
Context {feat : Type} (fzero : feat).
Context {rng : Type} `{!RandomGen rng}.
Context {Session sparse : Type}.
Context (list2sparsetensor : list (list Z) → Z → sparse).

Implicit Types (self : DatasetBase feat) (st : state rng).
Implicit Types (session : option Session).

(** A turn whose draw raises passes the exception on. *)
Lemma next_batch_iter_Raise self size session st e :
  (mini_batch fzero self size st).1 = Raise e →
  next_batch_iter fzero list2sparsetensor self size session st
  = (Raise e, (mini_batch fzero self size st).2).
Proof.
  rewrite next_batch_iter_run.
  destruct (mini_batch fzero self size st) as [[d|e'] st1]; [done|].
  by intros [= ->].
Qed.

Lemma sorted_draw_run self size st :
  (draw_sorted self size st).1 = Ok (sorted_draw size (rest st))
  ∧ rest (draw_sorted self size st).2
    = if decide (size < length (rest st))
      then set_difference_update (rest st) (take size (rest st))
      else seq 0 (data_num self).
Proof.
  rewrite draw_sorted_run. unfold sorted_draw. by case_decide.
Qed.

(** In sorted mode the draw [pre] is collated after its shuffle. *)
Lemma sorted_mini_batch self size st :
  is_sorted self = true →
  ∃ indices,
    indices ≡ₚ sorted_draw size (rest st)
    ∧ (mini_batch fzero self size st).1
      = (arr ← sorted_collate fzero self (sorted_draw size (rest st)) indices;
         Ok (indices, arr))
    ∧ rest (mini_batch fzero self size st).2
      = if decide (size < length (rest st))
        then set_difference_update (rest st) (take size (rest st))
        else seq 0 (data_num self).
Proof.
  intros Hs. unfold mini_batch. rewrite Hs.
  destruct (sorted_draw_run self size st) as [Hpre Hrest].
  destruct (draw_sorted self size st) as [r st1] eqn:Hdraw. cbn in Hpre, Hrest.
  subst r.
  apply (sorted_branch_run fzero) in Hdraw as [Hres (Hrest1 & _)].
  eexists. split_and!; [apply shuffle_perm|exact Hres|by rewrite Hrest1].
Qed.

(** Without sorting the draw is collated as it is. *)
Lemma random_mini_batch self size st :
  is_sorted self = false →
  ∃ indices,
    (if decide (size < length (rest st))
     then length indices = size ∧ indices ⊆+ rest st
     else indices ≡ₚ rest st)
    ∧ (mini_batch fzero self size st).1
      = (arr ← random_collate fzero self indices; Ok (indices, arr))
    ∧ rest (mini_batch fzero self size st).2
      = if decide (size < length (rest st))
        then set_difference_update (rest st) indices
        else seq 0 (data_num self).
Proof.
  intros Hs. unfold mini_batch. rewrite Hs.
  pose proof (draw_random_run self size st) as Hdraw.
  case_decide as Hfull;
    apply (random_branch_run fzero) in Hdraw as [Hres Hst];
    eexists; (split; [|split; [exact Hres|by rewrite Hst]]).
  - split; [apply sample_length; lia|apply sample_sub; lia].
  - apply shuffle_perm.
Qed.

Lemma sorted_collate_nothing self indices :
  sorted_collate fzero self [] indices = Raise empty_list_error.
Proof. reflexivity. Qed.

Lemma random_collate_nothing self :
  random_collate fzero self [] = Raise empty_max_error.
Proof. reflexivity. Qed.

(** X8.  A batch size of zero yields nothing: with indices in the pool the
    turn raises [IndexError] in sorted mode (the last of no indices) and
    [ValueError] otherwise (the maximum of no lengths), and the pool is left
    as it was. *)
Theorem zero_batch_size_raises self session st :
  rest st ≠ [] →
  ∃ e st',
    next_batch_iter fzero list2sparsetensor self 0 session st = (Raise e, st')
    ∧ (if is_sorted self then ∃ msg, e = IndexError msg
       else ∃ msg, e = ValueError msg)
    ∧ rest st' = rest st.
Proof.
  intros Hne.
  assert (0 < length (rest st)) as Hpos by (destruct (rest st); [done|cbn; lia]).
  destruct (is_sorted self) eqn:Hs.
  - destruct (sorted_mini_batch self 0 st Hs) as (indices & _ & Hres & Hrest).
    unfold sorted_draw in Hres. rewrite decide_True in Hres by done.
    rewrite decide_True in Hrest by done.
    cbn [take] in Hres, Hrest. rewrite sorted_collate_nothing in Hres.
    eexists _, _. split_and!; [by apply next_batch_iter_Raise|by eexists|].
    rewrite Hrest. apply list_difference_nil.
  - destruct (random_mini_batch self 0 st Hs) as (indices & Hidx & Hres & Hrest).
    rewrite decide_True in Hidx by done.
    rewrite decide_True in Hrest by done.
    destruct Hidx as [->%nil_length_inv _].
    rewrite random_collate_nothing in Hres.
    eexists _, _. split_and!; [by apply next_batch_iter_Raise|by eexists|].
    rewrite Hrest. apply list_difference_nil.
Qed.

(** X9.  A dataset without examples yields nothing: whatever the batch
    size, the turn raises [IndexError] in sorted mode and [ValueError]
    otherwise, and the pool stays empty. *)
Theorem empty_dataset_raises self size session st :
  data_num self = 0 → pool_ok self (rest st) →
  ∃ e st',
    next_batch_iter fzero list2sparsetensor self size session st = (Raise e, st')
    ∧ (if is_sorted self then ∃ msg, e = IndexError msg
       else ∃ msg, e = ValueError msg)
    ∧ rest st' = [].
Proof.
  intros HN [_ Hlt].
  assert (rest st = []) as Hrest0.
  { destruct (rest st) as [|x l]; [done|].
    apply Forall_cons in Hlt as [? _]. lia. }
  destruct (is_sorted self) eqn:Hs.
  - destruct (sorted_mini_batch self size st Hs) as (indices & _ & Hres & Hrest).
    unfold sorted_draw in Hres. rewrite Hrest0 in Hres, Hrest.
    rewrite decide_False in Hres by (cbn; lia).
    rewrite decide_False in Hrest by (cbn; lia).
    rewrite sorted_collate_nothing in Hres.
    eexists _, _. split_and!; [by apply next_batch_iter_Raise|by eexists|].
    by rewrite Hrest, HN.
  - destruct (random_mini_batch self size st Hs) as (indices & Hidx & Hres & Hrest).
    rewrite Hrest0 in Hidx, Hrest.
    rewrite decide_False in Hidx by (cbn; lia).
    rewrite decide_False in Hrest by (cbn; lia).
    apply Permutation_nil_r in Hidx as ->.
    rewrite random_collate_nothing in Hres.
    eexists _, _. split_and!; [by apply next_batch_iter_Raise|by eexists|].
    by rewrite Hrest, HN.
Qed.

Lemma loaded_in_range self (indices : list nat) :
  loaded self → Forall (λ i, i < data_num self) indices →
  Forall (in_range self) indices.
Proof.
  intros (Hi & Hl & Hp) Hlt. eapply Forall_impl; [exact Hlt|].
  intros x Hx. unfold in_range. cbn in Hx. lia.
Qed.

Lemma assign_prefix_cases {A} (row data : list A) :
  (∃ row', assign_prefix row data = Ok row')
  ∨ assign_prefix row data = Raise broadcast_error.
Proof. unfold assign_prefix. repeat case_decide; eauto. Qed.

(** The only error of the filling loop on examples of the dataset is the
    one of a slice assignment that does not fit. *)
Lemma fill_example_cases self T L x :
  in_range self x →
  (∃ r, fill_example fzero self T L x = Ok r)
  ∨ fill_example fzero self T L x = Raise broadcast_error.
Proof.
  intros (Hi & Hl & Hp). unfold fill_example.
  rewrite (getitem_default _ [] _ Hi). cbn [mbind result_bind].
  destruct (assign_prefix_cases
              (replicate T (replicate (input_size self) fzero))
              (default [] (input_list self !! x))) as [[row ->]| ->];
    [|by right].
  cbn [mbind result_bind]. rewrite (getitem_default _ [] _ Hl).
  cbn [mbind result_bind].
  destruct (assign_prefix_cases (replicate L padded_value)
              (default [] (label_list self !! x))) as [[lrow ->]| ->];
    [|by right].
  cbn [mbind result_bind]. rewrite (getitem_default _ EmptyString _ Hp).
  left. eauto.
Qed.

Lemma fill_example_too_long self T L x :
  in_range self x → T < length (frames self x) → length (frames self x) ≠ 1 →
  fill_example fzero self T L x = Raise broadcast_error.
Proof.
  intros (Hi & _) HT H1. unfold fill_example.
  rewrite (getitem_default _ [] _ Hi). cbn [mbind result_bind].
  fold (frames self x). unfold assign_prefix.
  rewrite decide_False by (rewrite length_replicate; lia).
  by rewrite decide_False.
Qed.

Lemma fill_arrays_too_long self indices T L x :
  Forall (in_range self) indices → x ∈ indices →
  T < length (frames self x) → length (frames self x) ≠ 1 →
  fill_arrays fzero self indices T L = Raise broadcast_error.
Proof.
  intros Hr Hx HT H1. rewrite fill_arrays_rows.
  rewrite (map_result_Raise _ _ broadcast_error); [done| |].
  - eapply Forall_impl; [exact Hr|]. intros y. apply fill_example_cases.
  - apply Exists_exists. exists x. split; [done|].
    apply fill_example_too_long; [|done..].
    by eapply Forall_forall in Hr.
Qed.

(** X10.  In sorted mode the width of the input tensor is the number of
    frames of the last index drawn.  On a dataset that is not in that order,
    a drawn example with more frames than that one (and more than one
    frame) makes the slice assignment raise [ValueError], after the pool
    has been updated. *)
Theorem longer_example_in_sorted_mode_raises self size session st last_index x :
  is_sorted self = true → loaded self → pool_ok self (rest st) →
  last (sorted_draw size (rest st)) = Some last_index →
  x ∈ sorted_draw size (rest st) →
  length (frames self last_index) < length (frames self x) →
  length (frames self x) ≠ 1 →
  ∃ msg st',
    next_batch_iter fzero list2sparsetensor self size session st
    = (Raise (ValueError msg), st')
    ∧ rest st'
      = if decide (size < length (rest st))
        then set_difference_update (rest st) (take size (rest st))
        else seq 0 (data_num self).
Proof.
  intros Hs Hloaded [_ Hlt] Hlast Hx Hlonger H1.
  destruct (sorted_mini_batch self size st Hs) as (indices & Hperm & Hres & Hrest).
  assert (Forall (in_range self) (sorted_draw size (rest st))) as Hr.
  { apply loaded_in_range; [done|]. unfold sorted_draw. case_decide; [|done].
    by apply Forall_take. }
  assert (in_range self last_index) as (Hli & _).
  { eapply Forall_forall in Hr; [done|]. by apply last_Some_elem_of. }
  eexists _, _. split; [apply next_batch_iter_Raise|exact Hrest].
  rewrite Hres. unfold sorted_collate.
  rewrite (proj2 (last_item_Ok _ _) Hlast). cbn [mbind result_bind].
  rewrite (getitem_default _ [] _ Hli). cbn [mbind result_bind].
  rewrite (proj2 (take_indices_Ok (label_list self) [] _ _)
             (conj (Forall_impl _ _ _ Hr (λ y Hy, proj1 (proj2 Hy))) eq_refl)).
  cbn [mbind result_bind].
  destruct (sorted_draw size (rest st)) as [|y pre] eqn:Hpre;
    [exfalso; by apply elem_of_nil in Hx|].
  cbn [py_max fmap list_fmap mbind result_bind].
  rewrite (fill_arrays_too_long self indices _ _ x);
    [cbn [mbind result_bind]; reflexivity| |by rewrite Hperm|done..].
  by rewrite Hperm.
Qed.

End EdgeCases.

(** ** The label matrix *)

Section Labels.
Context {feat : Type} (fzero : feat).
Context {rng : Type} `{!RandomGen rng}.
Context {Session sparse : Type}.
Context (list2sparsetensor : list (list Z) → Z → sparse).

Implicit Types (self : DatasetBase feat) (st : state rng).
Implicit Types (session : option Session).

Lemma fill_example_label self T L x r :
  fill_example fzero self T L x = Ok r → length (label_seq self x) ≤ L →
  f_label r = pad_to L padded_value (label_seq self x).
Proof.
  intros Hr HL. pose proof (fill_example_in_range _ _ _ _ _ _ Hr) as (_ & Hl & _).
  revert Hr. unfold fill_example.
  intros (data & _ & (row & _ & Hr)%result_bind_Ok)%result_bind_Ok.
  rewrite (getitem_default _ [] _ Hl) in Hr. cbn [mbind result_bind] in Hr.
  fold (label_seq self x) in Hr. rewrite assign_prefix_replicate in Hr by done.
  cbn [mbind result_bind] in Hr.
  by apply result_bind_Ok in Hr as (path & _ & [= <-]).
Qed.

Lemma fill_arrays_labels self indices T L arr :
  fill_arrays fzero self indices T L = Ok arr →
  Forall (λ x, length (label_seq self x) ≤ L) indices →
  labels arr = (λ x, pad_to L padded_value (label_seq self x)) <$> indices.
Proof.
  rewrite fill_arrays_rows.
  intros (rows & Hrows%map_result_Ok & [= <-])%result_bind_Ok HL. cbn.
  induction Hrows as [|x r indices rows Hr _ IH]; [done|].
  apply Forall_cons in HL as [Hx HL]. cbn.
  by rewrite (fill_example_label _ _ _ _ _ Hr Hx), IH.
Qed.

Lemma sorted_collate_labels self pre indices arr :
  sorted_collate fzero self pre indices = Ok arr →
  ∃ T, fill_arrays fzero self indices T (max_labels self pre) = Ok arr.
Proof.
  unfold sorted_collate.
  intros (li & _ & (data_last & _ & (labs & [_ ->]%(take_indices_Ok _ []) &
    (L & [_ ->]%py_max_Ok & Hfill)%result_bind_Ok)%result_bind_Ok
    )%result_bind_Ok)%result_bind_Ok.
  rewrite fmap_length_default in Hfill. eauto.
Qed.

(** The label matrix of a draw, in either mode and whatever the order of
    the dataset. *)
Lemma mini_batch_labels self size st indices arr st1 :
  mini_batch fzero self size st = (Ok (indices, arr), st1) →
  Forall (in_range self) indices
  ∧ labels arr
    = (λ x, pad_to (max_labels self indices) padded_value (label_seq self x))
      <$> indices.
Proof.
  intros Hrun.
  assert ((mini_batch fzero self size st).1 = Ok (indices, arr)) as Hres
    by by rewrite Hrun.
  clear Hrun. destruct (is_sorted self) eqn:Hs.
  - destruct (sorted_mini_batch fzero self size st Hs) as (idx & Hperm & Hm & _).
    rewrite Hm in Hres.
    apply result_bind_Ok in Hres as (arr' & Hc & [= -> ->]).
    apply sorted_collate_labels in Hc as (T & Hfill).
    rewrite <-(max_labels_perm _ _ _ Hperm) in Hfill.
    split; [by eapply fill_arrays_in_range|].
    eapply fill_arrays_labels; [done|].
    apply Forall_forall. intros x Hx. by apply max_labels_ge.
  - destruct (random_mini_batch fzero self size st Hs) as (idx & _ & Hm & _).
    rewrite Hm in Hres.
    apply result_bind_Ok in Hres as (arr' & Hc & [= -> ->]).
    apply random_collate_Ok in Hc as (_ & Hr & ->). split; [done|].
    unfold padded, arrays_of. cbn. by rewrite <-list_fmap_compose.
Qed.

(** X15.  In every batch that [next_batch] produces, in both modes and
    whatever the order of the dataset, row [i] of the label matrix has the
    width of the longest label sequence of the batch, starts with the labels
    of the [i]-th drawn example and holds [-1] from there on: no label is
    ever cut or lost. *)
Theorem labels_are_padded_whatever_the_order
    self batch_size session n st outs st' :
  next_batch fzero list2sparsetensor self batch_size session n st
  = (Ok outs, st') →
  Forall (λ io, ∃ arr, yields list2sparsetensor arr io.2
                       ∧ labels_are_padded self io.1 arr) outs.
Proof.
  intros Hrun.
  eapply (next_batch_Forall fzero list2sparsetensor (λ _, True));
    [done|done| |done|exact Hrun].
  intros size st0 [indices out] st1 _ (arr & st2 & Hmini & Hsplit)%next_batch_iter_Ok.
  exists arr. split; [by eapply split_batch_yields|].
  apply mini_batch_labels in Hmini as [Hr Hlabels].
  intros i x Hx. cbn in *.
  assert (x ∈ indices) as Hin by by eapply list_elem_of_lookup_2.
  eapply Forall_forall in Hr; [|done].
  apply in_range_lookup in Hr as (_ & Hl & _).
  eexists _, _. split_and!; [done| | | |].
  - by rewrite Hlabels, list_lookup_fmap, Hx.
  - by apply pad_to_length, max_labels_ge.
  - apply pad_to_prefix.
  - intros t. apply pad_to_beyond.
Qed.
End Labels.

(** ** The share of a replica *)

Section ReplicaShare.
Context {feat : Type} (fzero : feat).
Context {rng : Type} `{!RandomGen rng}.
Context {Session sparse : Type}.
Context (list2sparsetensor : list (list Z) → Z → sparse).

Implicit Types (self : DatasetBase feat) (st : state rng).
Implicit Types (session : option Session).

(** A full turn of a sharded generator whose batch size is a multiple of
    the number of replicas. *)
Lemma full_sharded_turn self size (s : Session) st :
  wf_dataset self → pool_ok self (rest st) → next_epoch_flag st = false →
  1 < num_gpu self → 0 < size → size < length (rest st) →
  size `mod` num_gpu self = 0 →
  ∃ indices out st',
    next_batch_iter fzero list2sparsetensor self size (Some s) st
    = (Ok (indices, out), st')
    ∧ length indices = size
    ∧ sharded_in (num_gpu self) (size `div` num_gpu self) out.
Proof.
  intros Hwf Hok Hflag Hg Hsize Hfull Hmod.
  assert (rest st ≠ []) as Hne by (destruct (rest st); [cbn in Hfull; lia|done]).
  destruct (mini_batch_total fzero self size st Hwf Hok Hne Hsize)
    as (indices & st1 & Hmini & Hdrawn & _).
  revert Hdrawn. unfold drawn. rewrite decide_True by done.
  intros (Hlen & _ & _ & _ & Hflag1).
  destruct (shard_sharded_in list2sparsetensor (padded fzero self indices)
              (num_gpu self) size) as (out & Hshard & Hout); [lia|done| |].
  { rewrite <-Hlen. apply padded_holds_examples. }
  exists indices, out, (flag_off st1). split_and!; [|done..].
  rewrite next_batch_iter_run, Hmini. cbn.
  rewrite split_batch_sharded by done. unfold divide_num_of.
  by rewrite Hflag1, Hflag, Hshard.
Qed.

(** X16.  An object built with [batch_size = b] and [num_gpu = g > 1] gives
    each replica [b] examples: the first batch of a generator with the
    default size, drawn from a pool of more than [b * g] indices, holds
    [b * g] examples in [g] slices of [b]. *)
Theorem each_replica_gets_batch_size
    data_type label_type (b : nat) sorted (g : nat) (c : corpus feat)
    (s : Session) st :
  wf_dataset (__init__ data_type label_type b sorted g c).1 →
  pool_ok (__init__ data_type label_type b sorted g c).1 (rest st) →
  1 < g → 0 < b → b * g < length (rest st) →
  ∃ indices out st',
    next_batch fzero list2sparsetensor
      (__init__ data_type label_type b sorted g c).1 None (Some s) 1 st
    = (Ok [(indices, out)], st')
    ∧ length indices = b * g
    ∧ sharded_in g b out.
Proof.
  intros Hwf Hok Hg Hb Hfull.
  set (self := (__init__ data_type label_type b sorted g c).1) in *.
  destruct (full_sharded_turn self (b * g) s (flag_off st))
    as (indices & out & st' & Hiter & Hlen & Hout);
    [done|done|done|done|nia|done|apply multiple_mod_0|].
  exists indices, out, st'. split_and!; [|done|].
  - unfold next_batch. rewrite bind_run, next_batch_enter_run.
    cbn [is_none andb default]. rewrite iterate_S.
    change (self_batch_size self) with (b * g). by rewrite Hiter, iterate_0.
  - change (num_gpu self) with g in Hout.
    by rewrite Nat.div_mul in Hout by lia.
Qed.
End ReplicaShare.

(** ** The properties above on the concrete corpora *)

Lemma demo6_with_sorted_by_frame_num b g : sorted_by_frame_num (demo6_with b g).
Proof.
  intros i j Hij Hj. cbn in Hj.
  do 6 (destruct j as [|j]; [do 6 (destruct i as [|i]; [cbn; lia|]); lia|]). lia.
Qed.

Lemma demo6_with_wf b g : wf_dataset (demo6_with b g).
Proof. split; [reflexivity..|]. intros _. apply demo6_with_sorted_by_frame_num. Qed.

Lemma demo6_two_left_pool_ok b g : pool_ok (demo6_with b g) (rest demo6_two_left).
Proof.
  split.
  - eapply ascending_sublist; [|apply (ascending_seq 4 2)]. done.
  - repeat constructor; cbn; lia.
Qed.

Lemma seq_len_is_frame_count_witness :
  Forall (λ io, ∃ arr, yields triples arr io.2
                       ∧ lengths_are_frame_counts (demo false 2 1) io.1 arr)
         demo_random_epoch.
Proof.
  exact (seq_len_is_frame_count 0%Z triples (demo false 2 1) None None 3
           demo_start demo_random_epoch demo_end demo_random_run).
Defined.

Lemma batch_holds_min_of_size_and_pool_witness :
  ∃ (indices : list nat) (out : batch Z (list (nat * nat * Z))),
    indices ≠ []
    ∧ length indices = 2 `min` length (rest demo_after_two)
    ∧ ∃ arr, yields triples arr out ∧ holds_examples (length indices) arr.
Proof.
  eexists _, _.
  eapply (batch_holds_min_of_size_and_pool 0%Z triples (demo true 2 1) 2
            (None : option ()) demo_after_two).
  reflexivity.
Defined.


Lemma single_replica_ignores_session_witness :
  next_batch 0%Z triples (demo true 2 1) None (Some ()) 3 demo_start
  = next_batch 0%Z triples (demo true 2 1) None (None : option ()) 3 demo_start
  ∧ ∀ (session : option ()) outs st',
      next_batch 0%Z triples (demo true 2 1) None session 3 demo_start
      = (Ok outs, st') →
      Forall (λ io, is_whole io.2) outs.
Proof.
  exact (single_replica_ignores_session 0%Z triples (demo true 2 1) None () 3
           demo_start eq_refl).
Defined.

Lemma rollover_shards_by_dataset_size_witness :
  (∃ indices out st',
     next_batch_iter 0%Z triples demo6 6 (Some ()) demo6_start
     = (Ok (indices, out), st')
     ∧ indices ≡ₚ rest demo6_start ∧ sharded_in 3 2 out ∧ rest st' = seq 0 6)
  ∧ (∃ msg st',
       next_batch_iter 0%Z triples demo6 4 (Some ()) demo6_two_left
       = (Raise (ValueError msg), st')
       ∧ rest st' = seq 0 6).
Proof.
  split.
  - destruct (rollover_shards_by_dataset_size 0%Z triples demo6 6 () demo6_start)
      as (_ & Hyield & _).
    + apply (demo6_with_wf 1 4).
    + apply (pool_ok_seq demo6).
    + discriminate.
    + lia.
    + cbn. lia.
    + cbn. lia.
    + apply Hyield. reflexivity.
  - destruct (rollover_shards_by_dataset_size 0%Z triples demo6 4 () demo6_two_left)
      as (_ & _ & Hraise).
    + apply (demo6_with_wf 1 4).
    + apply (demo6_two_left_pool_ok 1 4).
    + discriminate.
    + lia.
    + cbn. lia.
    + cbn. lia.
    + apply Hraise. vm_compute. lia.
Defined.

Lemma uneven_full_batch_raises_witness :
  ∃ msg st',
    next_batch_iter 0%Z triples (demo true 1 2) 3 (Some ()) demo_start
    = (Raise (ValueError msg), st')
    ∧ length (rest st') = length (rest demo_start) - 3.
Proof.
  apply (uneven_full_batch_raises 0%Z triples (demo true 1 2) 3 () demo_start).
  - apply demo_wf.
  - apply demo_pool_ok.
  - reflexivity.
  - cbn. lia.
  - lia.
  - cbn. lia.
  - cbn. lia.
Defined.

Lemma zero_batch_size_raises_witness :
  ∃ e st',
    next_batch_iter 0%Z triples (demo false 2 1) 0 (None : option ()) demo_start
    = (Raise e, st')
    ∧ (if is_sorted (demo false 2 1) then ∃ msg, e = IndexError msg
       else ∃ msg, e = ValueError msg)
    ∧ rest st' = rest demo_start.
Proof.
  apply (zero_batch_size_raises 0%Z triples (demo false 2 1) None demo_start).
  discriminate.
Defined.

Lemma empty_dataset_raises_witness :
  ∃ e st',
    next_batch_iter 0%Z triples
      (__init__ "dev" "phone" 2 true 1 empty_corpus).1 2 (None : option ())
      (start (__init__ "dev" "phone" 2 true 1 empty_corpus).2 0)
    = (Raise e, st')
    ∧ (if is_sorted (__init__ "dev" "phone" 2 true 1 empty_corpus).1
       then ∃ msg, e = IndexError msg else ∃ msg, e = ValueError msg)
    ∧ rest st' = [].
Proof.
  apply (empty_dataset_raises 0%Z triples
           (__init__ "dev" "phone" 2 true 1 empty_corpus).1 2 None
           (start (__init__ "dev" "phone" 2 true 1 empty_corpus).2 0)).
  - reflexivity.
  - apply (pool_ok_seq (__init__ "dev" "phone" 2 true 1 empty_corpus).1).
Defined.

Lemma longer_example_in_sorted_mode_raises_witness :
  ∃ msg st',
    next_batch_iter 0%Z triples
      (__init__ "dev" "phone" 2 true 1 disordered_corpus).1 2 (None : option ())
      (start (seq 0 2) 0)
    = (Raise (ValueError msg), st')
    ∧ rest st' = seq 0 2.
Proof.
  apply (longer_example_in_sorted_mode_raises 0%Z triples
           (__init__ "dev" "phone" 2 true 1 disordered_corpus).1 2 None
           (start (seq 0 2) 0) 1 0).
  - reflexivity.
  - by repeat split.
  - apply (pool_ok_seq (__init__ "dev" "phone" 2 true 1 disordered_corpus).1).
  - reflexivity.
  - by left.
  - cbn. lia.
  - cbn. lia.
Defined.

Lemma shards_are_equal_slices_in_order_witness :
  ∃ (indices : list nat) ins labels_st lens names,
    1 ≤ length ins ≤ num_gpu (demo true 1 2)
    ∧ length ins * (length indices `div` length ins) = length indices
    ∧ sharded_in (length ins) (length indices `div` length ins)
        (Sharded ins labels_st lens names : batch Z (list (nat * nat * Z)))
    ∧ concat lens = (λ x, length (frames (demo true 1 2) x)) <$> indices
    ∧ concat names = name_of (demo true 1 2) <$> indices.
Proof.
  eexists _, _, _, _, _.
  eapply (shards_are_equal_slices_in_order 0%Z triples (demo true 1 2) 2
            (Some ()) demo_start).
  reflexivity.
Defined.




Lemma labels_are_padded_whatever_the_order_witness :
  Forall (λ io, ∃ arr, yields triples arr io.2
                       ∧ labels_are_padded
                           (__init__ "dev" "phone" 2 true 1 unsorted_corpus).1
                           io.1 arr)
    [([0; 1],
      Whole [[]; []] [(0, 0, 7%Z); (1, 0, 3%Z)] [1; 0] [Some "a"; Some "b"])].
Proof.
  exact (labels_are_padded_whatever_the_order 0%Z triples
           (__init__ "dev" "phone" 2 true 1 unsorted_corpus).1 None None 1
           (start (seq 0 2) 0) _ _ sorted_mode_on_unsorted_dataset).
Defined.

Lemma each_replica_gets_batch_size_witness :
  ∃ indices out st',
    next_batch 0%Z triples (demo6_with 2 2) None (Some ()) 1 demo6_start
    = (Ok [(indices, out)], st')
    ∧ length indices = 2 * 2
    ∧ sharded_in 2 2 out.
Proof.
  apply (each_replica_gets_batch_size 0%Z triples "train" "phone" 2 true 2
           demo6_corpus () demo6_start).
  - apply (demo6_with_wf 2 2).
  - apply (pool_ok_seq (demo6_with 2 2)).
  - lia.
  - lia.
  - cbn. lia.
Defined.

(** ** Fail-stop padding and the schedule of sorted mode *)

Lemma assign_prefix_Ok_length {A} (row data row' : list A) :
  assign_prefix row data = Ok row' → 0 < length row → length data ≤ length row.
Proof. unfold assign_prefix. repeat case_decide; intros; try done; lia. Qed.

Section FailStop.
Context {feat : Type} (fzero : feat).
Context {rng : Type} `{!RandomGen rng}.
Context {Session sparse : Type}.
Context (list2sparsetensor : list (list Z) → Z → sparse).

Implicit Types (self : DatasetBase feat) (st : state rng).
Implicit Types (session : option Session).

Lemma fill_example_Ok_fits self T L x r :
  fill_example fzero self T L x = Ok r → 0 < T → length (frames self x) ≤ T.
Proof.
  intros Hr HT. pose proof (fill_example_in_range _ _ _ _ _ _ Hr) as (Hi & _).
  revert Hr. unfold fill_example.
  rewrite (getitem_default _ [] _ Hi). cbn [mbind result_bind].
  intros (row & Hrow%assign_prefix_Ok_length & _)%result_bind_Ok;
    rewrite length_replicate in *; done.
Qed.

Lemma fill_arrays_Ok_fits self indices T L arr :
  fill_arrays fzero self indices T L = Ok arr → 0 < T →
  Forall (λ x, length (frames self x) ≤ T) indices.
Proof.
  rewrite fill_arrays_rows.
  intros (rows & Hrows%map_result_Ok & _)%result_bind_Ok HT.
  induction Hrows as [|x r indices rows Hr _ IH]; constructor; [|done].
  by eapply fill_example_Ok_fits.
Qed.

Lemma sorted_collate_inv self pre indices arr :
  sorted_collate fzero self pre indices = Ok arr →
  ∃ last_index,
    last pre = Some last_index ∧ last_index < length (input_list self)
    ∧ fill_arrays fzero self indices (length (frames self last_index))
        (max_labels self pre) = Ok arr.
Proof.
  unfold sorted_collate.
  intros (li & Hlast%last_item_Ok & (data_last & Hdata &
    (labs & [_ ->]%(take_indices_Ok _ []) & (L & [_ ->]%py_max_Ok & Hfill
    )%result_bind_Ok)%result_bind_Ok)%result_bind_Ok)%result_bind_Ok.
  pose proof (getitem_Ok_lt _ _ _ Hdata) as Hlt.
  rewrite (getitem_default _ [] _ Hlt) in Hdata. injection Hdata as <-.
  rewrite fmap_length_default in Hfill. eauto.
Qed.

(** On a dataset without empty utterances a draw that succeeds has built
    the padded batch of its indices, in either mode and whatever the order
    of the dataset. *)
Lemma mini_batch_padded self size st indices arr st1 :
  Forall (λ data, data ≠ []) (input_list self) →
  mini_batch fzero self size st = (Ok (indices, arr), st1) →
  Forall (in_range self) indices ∧ arr = padded fzero self indices.
Proof.
  intros Hfull Hrun.
  assert ((mini_batch fzero self size st).1 = Ok (indices, arr)) as Hres
    by by rewrite Hrun.
  clear Hrun. destruct (is_sorted self) eqn:Hs.
  - destruct (sorted_mini_batch fzero self size st Hs) as (idx & Hperm & Hm & _).
    rewrite Hm in Hres.
    apply result_bind_Ok in Hres as (arr' & Hc & [= -> ->]).
    apply sorted_collate_inv in Hc as (li & Hlast & Hli & Hfill).
    pose proof (fill_arrays_in_range _ _ _ _ _ _ Hfill) as Hr.
    split; [done|].
    assert (0 < length (frames self li)) as HT.
    { destruct (lookup_lt_is_Some_2 _ _ Hli) as [d Hd].
      unfold frames. rewrite Hd. cbn.
      eapply Forall_forall in Hfull; [|by eapply list_elem_of_lookup_2].
      destruct d; [done|cbn; lia]. }
    pose proof (fill_arrays_Ok_fits _ _ _ _ _ Hfill HT) as Hfits.
    assert (max_frames self indices = length (frames self li)) as HTmax.
    { apply max_list_upper; [|by apply Forall_fmap].
      apply (list_elem_of_fmap_2 (λ x, length (frames self x))).
      rewrite Hperm. by apply last_Some_elem_of. }
    rewrite <-HTmax, <-(max_labels_perm _ _ _ Hperm) in Hfill.
    rewrite fill_arrays_fits in Hfill; [by injection Hfill as <-|done| |].
    + apply (max_list_fmap_le (λ x, length (frames self x))).
    + apply (max_list_fmap_le (λ x, length (label_seq self x))).
  - destruct (random_mini_batch fzero self size st Hs) as (idx & _ & Hm & _).
    rewrite Hm in Hres.
    apply result_bind_Ok in Hres as (arr' & Hc & [= -> ->]).
    by apply random_collate_Ok in Hc as (_ & Hr & ->).
Qed.

(** X17.  On a dataset without empty utterances the generator is fail-stop:
    whatever the mode, the order of the dataset and the pool, a batch that
    it yields is padded as it should be.  Its rows are as long as the
    longest drawn example and the longest drawn label sequence, start with
    the frames and the labels of their examples and hold zero frames and
    [-1] behind them. *)
Theorem yielded_batches_are_padded_whatever_the_order
    self batch_size session n st outs st' :
  Forall (λ data, data ≠ []) (input_list self) →
  next_batch fzero list2sparsetensor self batch_size session n st
  = (Ok outs, st') →
  Forall (λ io, ∃ arr, yields list2sparsetensor arr io.2
                       ∧ padded_beyond_length fzero self io.1 arr
                       ∧ widths_are_maxima self io.1 arr) outs.
Proof.
  intros Hfull Hrun.
  eapply (next_batch_Forall fzero list2sparsetensor (λ _, True));
    [done|done| |done|exact Hrun].
  intros size st0 [indices out] st1 _ (arr & st2 & Hmini & Hsplit)%next_batch_iter_Ok.
  exists arr. split; [by eapply split_batch_yields|].
  apply mini_batch_padded in Hmini as [Hr ->]; [|done]. cbn. split.
  - by apply padded_padded_beyond_length.
  - by apply padded_widths_are_maxima.
Qed.


End FailStop.

Lemma yielded_batches_are_padded_whatever_the_order_witness :
  Forall (λ io, ∃ arr, yields triples arr io.2
                       ∧ padded_beyond_length 0%Z (demo true 2 1) io.1 arr
                       ∧ widths_are_maxima (demo true 2 1) io.1 arr)
    demo_sorted_epoch.
Proof.
  apply (yielded_batches_are_padded_whatever_the_order 0%Z triples
           (demo true 2 1) None (None : option ()) 3 demo_start
           demo_sorted_epoch demo_end);
    [|exact demo_sorted_run].
  repeat constructor; discriminate.
Defined.

